(** * cf-backtester: a shallow embedding of the backtesting core

    The development follows the Go sources

    - [internal/strategy/cf_calculator.go]  (Capital Flow windows and values),
    - the ATR / ADX calculators of package [strategy],
    - [internal/backtester/engine.go]       (indicator pass, trading loop,
      metrics),
    - [internal/uploader/csv.go]            (CSV upload),

    and states the properties of the specification over that embedding.

    Numeric model.  A finite Go [float64] is a rational ([Q]); infinities
    and NaN are outside the model.  Comparing, selecting and storing such
    values is exact, and the definitions that only do this, or whose
    arithmetic does not enter the properties stated of them, compute in
    [Q].  Where a property depends on the arithmetic (the range of
    ADX, +DI and -DI; the cash balance against the recorded PnL) the
    definitions of module [F64] round every operation to the nearest
    float64 ([Binary64.round64]).  Every division the source guards
    against a zero denominator is guarded here in the same way; the
    unguarded ones are pointed out where they occur.  A Go
    [int] is a 64-bit two's-complement integer, modelled by [Z] with the
    wrap-around of [+] and [-] written out ([wrap]).  A conversion
    [int(x)] whose operand does not fit an [int] is implementation-dependent
    in Go; the embedding takes that value as a parameter.

    Slices.  A [[]*models.Candle] is a [list Candle] (candles are only read,
    so sharing of the backing array is unobservable); a slice expression
    [s[lo:hi]] panics when [0 <= lo <= hi <= len s] fails, which is [None]
    here (slices are taken at full capacity, [cap s = len s]). *)

From Stdlib Require Import ZArith QArith Qabs Qminmax Qround Qpower Lqa Lia.
From stdpp Require Import gmap strings list.

Local Open Scope Z_scope.

(** ** Machine integers and float64 *)

Module GoNum.

Definition int_min : Z := - 2 ^ 63.
Definition int_max : Z := 2 ^ 63 - 1.

Definition in_int (z : Z) : Prop := int_min <= z <= int_max.

Definition in_intb (z : Z) : bool := (int_min <=? z) && (z <=? int_max).

(** Two's-complement reduction of an [int] result. *)
Definition wrap (z : Z) : Z := (z + 2 ^ 63) mod 2 ^ 64 - 2 ^ 63.

Definition add (x y : Z) : Z := wrap (x + y).
Definition sub (x y : Z) : Z := wrap (x - y).

(** [x > y], [x < y], [x >= y], [x <= y], [x == y], [x != y] on float64. *)
Definition fgt (x y : Q) : bool := negb (Qle_bool x y).
Definition flt (x y : Q) : bool := negb (Qle_bool y x).
Definition fge (x y : Q) : bool := Qle_bool y x.
Definition fle (x y : Q) : bool := Qle_bool x y.
Definition feq (x y : Q) : bool := Qeq_bool x y.
Definition fne (x y : Q) : bool := negb (Qeq_bool x y).

(** Truncation toward zero, the value of [int(x)] when it fits. *)
Definition trunc (x : Q) : Z := Z.quot (Qnum x) (Zpos (Qden x)).

End GoNum.

Import GoNum.

(** ** float64 rounding *)

Module Binary64.

(** [floor (log2 x)] for [0 < x]. *)
Definition ilog2 (x : Q) : Z :=
  let k := Z.log2 (Qnum x) - Z.log2 (Z.pos (Qden x)) in
  if Qle_bool (2 ^ k) x then k else k - 1.

(** Rounding to the nearest integer, ties to even. *)
Definition rne (m : Q) : Z :=
  let f := Qfloor m in
  match (m - inject_Z f ?= 1 # 2)%Q with
  | Lt => f
  | Gt => f + 1
  | Eq => if Z.even f then f else f + 1
  end.

(** A positive [x] rounded to 53 significant bits. *)
Definition roundPos (x : Q) : Q :=
  let e := ilog2 x - 52 in
  (inject_Z (rne (x / 2 ^ e)) * 2 ^ e)%Q.

(** Rounding to the nearest float64, ties to even: the result of one
    float64 operation on finite operands, as long as it neither overflows
    nor underflows (the exponent is not bounded here). *)
Definition round64 (x : Q) : Q :=
  match (x ?= 0)%Q with
  | Eq => 0%Q
  | Gt => Qred (roundPos x)
  | Lt => Qred (- roundPos (- x))
  end.

(** The unit roundoff [2^-53]. *)
Definition unitRoundoff : Q := (2 ^ (-53))%Q.

End Binary64.

Import Binary64.

(** ** Data model ([internal/models]) *)

(** [models.Candle]; [ID], [Symbol] and [Interval] are never read by the
    core and are left out. *)
Record Candle : Type := mkCandle {
  Timestamp : Z;
  Open : Q;
  High : Q;
  Low : Q;
  Close : Q;
  Volume : Q
}.

(** [models.StrategyConfig], restricted to the fields the core reads. *)
Record StrategyConfig : Type := mkConfig {
  TotalKlines : Z;
  CustomAmplitude : Q;
  SecondCFEnv : Q;
  Epsilon : Q;
  NewTotalKlinesMin : Z;
  NewTotalKlinesMax : Z;
  SecondTotalKlinesMin : Z;
  ADXThreshold : Q
}.

(** ** Slices *)

Section Slices.
Context {A : Type}.

(** [s[lo:hi]]: [None] is the run-time panic "slice bounds out of range". *)
Definition slice (s : list A) (lo hi : Z) : option (list A) :=
  if (0 <=? lo) && (lo <=? hi) && (hi <=? Z.of_nat (length s))
  then Some (take (Z.to_nat (hi - lo)) (drop (Z.to_nat lo) s))
  else None.

Definition len (s : list A) : Z := Z.of_nat (length s).

End Slices.

(** ** Capital Flow calculator ([internal/strategy/cf_calculator.go]) *)

Section CFCalculator.

(** The implementation-dependent value of [int(n / d)] when the float64
    quotient is not representable as an [int] (out of range, or the
    quotient is infinite or NaN because [d] is zero). *)
Variable int_indefinite : Q → Q → Z.

(** [int(n / d)] for float64 operands. *)
Definition int_of_quotient (n d : Q) : Z :=
  if feq d 0 then int_indefinite n d
  else let z := trunc (n / d) in
       if in_intb z then z else int_indefinite n d.

(** The calculator holds its configuration. *)
Variable config : StrategyConfig.

Definition findMaxHigh (candles : list Candle) : Q :=
  match candles with
  | [] => 0
  | c0 :: rest =>
      fold_left (fun maxHigh candle =>
                   if fgt (High candle) maxHigh then High candle else maxHigh)
                rest (High c0)
  end.

Definition findMinLow (candles : list Candle) : Q :=
  match candles with
  | [] => 0
  | c0 :: rest =>
      fold_left (fun minLow candle =>
                   if flt (Low candle) minLow then Low candle else minLow)
                rest (Low c0)
  end.

Definition clamp (value min max : Z) : Z :=
  if value <? min then min
  else if value >? max then max
  else value.

(** [calculateNewTotalKlines]: the adaptive window size.  The division by
    [aSafe] is not guarded in the source; [int_of_quotient] covers the
    zero denominator. *)
Definition calculateNewTotalKlines (candles : list Candle) (t : Z) : option Z :=
  let totalKlines := TotalKlines config in
  window ← slice candles (add (sub t totalKlines) 1) (add t 1);
  let highWindow := findMaxHigh window in
  let lowWindow := findMinLow window in
  if feq lowWindow 0 then Some totalKlines
  else
    let aCurrent := ((highWindow - lowWindow) / lowWindow)%Q in
    let aSafe := Qmax aCurrent (Epsilon config) in
    let newTotalKlines :=
      int_of_quotient (inject_Z totalKlines * CustomAmplitude config)%Q aSafe in
    Some (clamp newTotalKlines (NewTotalKlinesMin config) (NewTotalKlinesMax config)).

(** [calculateCF]: half-split percent change of a window. *)
Definition calculateCF (window : list Candle) (prevCF : Q) : Q :=
  if len window <? 4 then prevCF
  else
    let half := Z.to_nat (Z.quot (len window) 2) in
    let segment1 := take half window in
    let segment2 := drop half window in
    let h1 := findMaxHigh segment1 in
    let l1 := findMinLow segment1 in
    let h2 := findMaxHigh segment2 in
    let l2 := findMinLow segment2 in
    let hCF := if fne h1 0 then (((h2 - h1) / h1) * 100)%Q else 0%Q in
    let lCF := if fne l1 0 then (((l2 - l1) / l1) * 100)%Q else 0%Q in
    ((hCF + lCF) / 2)%Q.

(** [CalculateMainCF]: [(mainCF, newTotalKlines)]. *)
Definition CalculateMainCF (candles : list Candle) (t : Z) (prevCF : Q)
  : option (Q * Z) :=
  if t <? TotalKlines config then Some (0%Q, TotalKlines config)
  else
    newTotalKlines ← calculateNewTotalKlines candles t;
    window ← slice candles (add (sub t newTotalKlines) 1) (add t 1);
    Some (calculateCF window prevCF, newTotalKlines).

(** [calculateSecondTotalKlines]. *)
Definition calculateSecondTotalKlines (mainCFEntry : Q) (prevSecondTotalKlines : Z) : Z :=
  if feq mainCFEntry 0 || feq (SecondCFEnv config) 0
  then SecondTotalKlinesMin config
  else
    let divisor := (mainCFEntry * SecondCFEnv config)%Q in
    if feq divisor 0 then prevSecondTotalKlines
    else
      let secondTotalKlines :=
        int_of_quotient (inject_Z prevSecondTotalKlines) (Qabs divisor) in
      if secondTotalKlines <? SecondTotalKlinesMin config
      then SecondTotalKlinesMin config
      else secondTotalKlines.

(** [CalculateSecondCF]: [(secondCF, secondTotalKlines)]. *)
Definition CalculateSecondCF (candles : list Candle) (entryIdx : Z)
    (mainCFEntry : Q) (prevSecondTotalKlines : Z) : option (Q * Z) :=
  let secondTotalKlines :=
    calculateSecondTotalKlines mainCFEntry prevSecondTotalKlines in
  if add entryIdx secondTotalKlines >=? len candles
  then Some (0%Q, secondTotalKlines)
  else
    window ← slice candles entryIdx (add entryIdx secondTotalKlines);
    Some (calculateCF window 0, secondTotalKlines).

End CFCalculator.

(** ** ATR calculator, and the arrays shared with the ADX calculator
    (package [strategy]) *)

Section Indicators.

(** [math.Max] and [math.Abs] on the rational model. *)
Definition trueRange (prev cur : Candle) : Q :=
  let highLow := (High cur - Low cur)%Q in
  let highPrevClose := Qabs (High cur - Close prev) in
  let lowPrevClose := Qabs (Low cur - Close prev) in
  Qmax highLow (Qmax highPrevClose lowPrevClose).

(** A loop [for i := 1; i < n; i++] that fills [out[i]] from
    [candles[i-1]] and [candles[i]]: [prev] is the candle before [cs]. *)
Fixpoint adjacent (f : Candle → Candle → Q) (prev : Candle) (cs : list Candle)
  : list Q :=
  match cs with
  | [] => []
  | cur :: rest => f prev cur :: adjacent f cur rest
  end.

(** The [tr] array: [tr[0] = high - low], then [trueRange]. *)
Definition trSeries (candles : list Candle) : list Q :=
  match candles with
  | [] => []
  | c0 :: rest => (High c0 - Low c0)%Q :: adjacent trueRange c0 rest
  end.

(** The recurrence [out[i] = alpha*x[i] + (1-alpha)*out[i-1]]. *)
Fixpoint emaFrom (alpha prev : Q) (xs : list Q) : list Q :=
  match xs with
  | [] => []
  | x :: rest =>
      let v := (alpha * x + (1 - alpha) * prev)%Q in
      v :: emaFrom alpha v rest
  end.

(** [out[0] = x[0]], then the recurrence. *)
Definition ema (alpha : Q) (xs : list Q) : list Q :=
  match xs with
  | [] => []
  | x0 :: rest => x0 :: emaFrom alpha x0 rest
  end.

(** [alpha := 2.0 / float64(period+1)]; the source does not guard
    [period = -1]. *)
Definition smoothing (period : Z) : Q := (2 / inject_Z (add period 1))%Q.

(** [ATRCalculator.Calculate]. *)
Definition ATR_Calculate (period : Z) (candles : list Candle) : list Q :=
  if len candles <? 2 then replicate (length candles) 0%Q
  else ema (smoothing period) (trSeries candles).

(** [plusDM] / [minusDM]: index 0 keeps the zero of [make]. *)
Definition dmSeries (step : Candle → Candle → Q) (candles : list Candle) : list Q :=
  match candles with
  | [] => []
  | c0 :: rest => 0%Q :: adjacent step c0 rest
  end.

End Indicators.

(** ** Backtesting engine ([internal/backtester/engine.go]) *)

(** [Position]: an open trading position; [EntryTime] and the trade times
    are the candle's Unix timestamp. *)
Record Position : Type := mkPosition {
  PSide : string;
  PEntryPrice : Q;
  PEntryTime : Z;
  PSize : Q;
  StopLoss : Q;
  TakeProfit : Q
}.

(** [models.Trade] (without the database [ID]). *)
Record Trade : Type := mkTrade {
  Side : string;
  EntryPrice : Q;
  EntryTime : Z;
  ExitPrice : Q;
  ExitTime : Z;
  Size : Q;
  PnL : Q
}.

(** [models.BacktestResult], restricted to what [executeBacktest] fills. *)
Record BacktestResult : Type := mkResult {
  TotalTrades : Z;
  WinningTrades : Z;
  LosingTrades : Z;
  WinRate : Q;
  TotalPnL : Q;
  TotalReturn : Q;
  Metrics : gmap string Q
}.

(** [models.Strategy], restricted to its configuration. *)
Record Strategy : Type := mkStrategy {
  Config : StrategyConfig
}.

(** The state of the trading loop: [currentPosition] ([None] is [nil]),
    [currentBalance] and the [trades] appended so far. *)
Record LoopState : Type := mkLoopState {
  currentPosition : option Position;
  currentBalance : Q;
  trades : list Trade
}.

Section Engine.

Variable int_indefinite : Q → Q → Z.
Variable strategy : Strategy.

(** The call [CalculateSecondCF(candles[:i+1], i, 0)] of the indicator pass
    gives no value for the parameter [prevSecondTotalKlines]. *)
Variable prevSecondTotalKlines : Z.

(** [a[i]]: [None] is the run-time panic "index out of range". *)
Definition at_index {A : Type} (a : list A) (i : Z) : option A :=
  if i <? 0 then None else a !! Z.to_nat i.

(** [x && y] evaluates [y] only when [x] holds. *)
Definition and_then (x : option bool) (y : option bool) : option bool :=
  b ← x; if b : bool then y else Some false.

(** One iteration of the loop of [calculateCFIndicators].  The call
    [CalculateMainCF(candles[:i+1], i, 0, 0)] has one argument more than the
    function has parameters: [prevCF] is the first [0].  Each element keeps
    the first result of its call. *)
Definition cfIndicatorsStep (candles : list Candle)
    (acc : list Q * list Q) (i : Z) : option (list Q * list Q) :=
  if i =? 0 then Some acc
  else
    upto ← slice candles 0 (add i 1);
    main ← CalculateMainCF int_indefinite (Config strategy) upto i 0;
    second ← CalculateSecondCF int_indefinite (Config strategy) upto i 0
               prevSecondTotalKlines;
    Some (<[Z.to_nat i := main.1]> acc.1, <[Z.to_nat i := second.1]> acc.2).

(** [for … { … }] over the given indices, stopping at the first panic. *)
Fixpoint forM {S : Type} (body : S → Z → option S) (s : S) (idxs : list Z)
  : option S :=
  match idxs with
  | [] => Some s
  | i :: rest => s' ← body s i; forM body s' rest
  end.

(** [calculateCFIndicators]: [(mainCF, secondCF)]. *)
Definition calculateCFIndicators (candles : list Candle)
  : option (list Q * list Q) :=
  let n := length candles in
  forM (cfIndicatorsStep candles) (replicate n 0%Q, replicate n 0%Q) (seqZ 0 (len candles)).

(** [checkEntrySignal]: ["LONG"], ["SHORT"] or [""]. *)
Definition checkEntrySignal (idx : Z)
    (mainCF secondCF adx plusDI minusDI atrPercent : list Q) : option string :=
  if idx <? 2 then Some ""
  else
    longCross ← and_then (m ← at_index mainCF idx; Some (fgt m 0))
                         (m ← at_index mainCF (idx - 1); Some (fle m 0));
    long ← (if longCross : bool
            then and_then (a ← at_index adx idx;
                           Some (fgt a (ADXThreshold (Config strategy))))
                          (p ← at_index plusDI idx; m ← at_index minusDI idx;
                           Some (fgt p m))
            else Some false);
    if long : bool then Some "LONG"
    else
      shortCross ← and_then (m ← at_index mainCF idx; Some (flt m 0))
                            (m ← at_index mainCF (idx - 1); Some (fge m 0));
      short ← (if shortCross : bool
               then and_then (a ← at_index adx idx;
                              Some (fgt a (ADXThreshold (Config strategy))))
                             (m ← at_index minusDI idx; p ← at_index plusDI idx;
                              Some (fgt m p))
               else Some false);
      if short : bool then Some "SHORT" else Some "".

(** [openPosition]; the division by [candle.Close] is not guarded in the
    source. *)
Definition openPosition (signal : string) (candle : Candle) (atr balance : Q)
  : Position :=
  let size := (balance * (1 # 10) / Close candle)%Q in
  if String.eqb signal "LONG"
  then mkPosition signal (Close candle) (Timestamp candle) size
         (Close candle - 2 * atr)%Q (Close candle + 3 * atr)%Q
  else mkPosition signal (Close candle) (Timestamp candle) size
         (Close candle + 2 * atr)%Q (Close candle - 3 * atr)%Q.

(** [checkExitSignal]. *)
Definition checkExitSignal (idx : Z) (position : Position) (candle : Candle)
    (atr : Q) : bool :=
  if String.eqb (PSide position) "LONG"
  then fle (Low candle) (StopLoss position) || fge (High candle) (TakeProfit position)
  else fge (High candle) (StopLoss position) || fle (Low candle) (TakeProfit position).

(** The exit price chosen by [closePosition]. *)
Definition exitPriceOf (position : Position) (candle : Candle) : Q :=
  if String.eqb (PSide position) "LONG"
  then if fle (Low candle) (StopLoss position) then StopLoss position
       else if fge (High candle) (TakeProfit position) then TakeProfit position
       else Close candle
  else if fge (High candle) (StopLoss position) then StopLoss position
       else if fle (Low candle) (TakeProfit position) then TakeProfit position
       else Close candle.

(** [closePosition]: the trade, its [PnL] still zero. *)
Definition closePosition (position : Position) (candle : Candle) : Trade :=
  mkTrade (PSide position) (PEntryPrice position) (PEntryTime position)
          (exitPriceOf position candle) (Timestamp candle) (PSize position) 0.

(** The assignments to [trade.PnL] that follow both calls of
    [closePosition] in [executeBacktest]. *)
Definition withPnL (position : Position) (trade : Trade) : Trade :=
  let pnl := ((ExitPrice trade - EntryPrice trade) * PSize position)%Q in
  let pnl := if String.eqb (PSide position) "SHORT" then (- pnl)%Q else pnl in
  mkTrade (Side trade) (EntryPrice trade) (EntryTime trade) (ExitPrice trade)
          (ExitTime trade) (Size trade) pnl.

(** Closing [position] against [candle]: credit the balance, record the
    trade, go flat. *)
Definition closeInto (st : LoopState) (position : Position) (candle : Candle)
  : LoopState :=
  let trade := closePosition position candle in
  mkLoopState None
              (currentBalance st + ExitPrice trade * PSize position)%Q
              (trades st ++ [withPnL position trade]).

Section Loop.

Variable candles : list Candle.
Variables mainCF secondCF atr atrPercent adx plusDI minusDI : list Q.

(** The body of the trading loop at index [i]. *)
Definition tradingStep (st : LoopState) (i : Z) : option LoopState :=
  candle ← at_index candles i;
  match currentPosition st with
  | None =>
      signal ← checkEntrySignal i mainCF secondCF adx plusDI minusDI atrPercent;
      if String.eqb signal "" then Some st
      else
        atr_i ← at_index atr i;
        let position := openPosition signal candle atr_i (currentBalance st) in
        Some (mkLoopState (Some position)
                          (currentBalance st - PSize position * Close candle)%Q
                          (trades st))
  | Some position =>
      atr_i ← at_index atr i;
      if checkExitSignal i position candle atr_i
      then Some (closeInto st position candle)
      else Some st
  end.

Definition initialBalance : Q := 10000.

Definition initialState : LoopState := mkLoopState None initialBalance [].

(** The state after the iterations [1 .. k] of the trading loop
    ([k < len candles]). *)
Definition tradingLoopUpto (k : Z) : option LoopState :=
  forM tradingStep initialState (seqZ 1 k).

(** The whole loop [for i := 1; i < len(candles); i++]. *)
Definition tradingLoop : option LoopState :=
  tradingLoopUpto (len candles - 1).

(** "Close any open position at the end". *)
Definition closeAtEnd (st : LoopState) : option LoopState :=
  match currentPosition st with
  | None => Some st
  | Some position =>
      lastCandle ← at_index candles (len candles - 1);
      Some (closeInto st position lastCandle)
  end.

(** The trade ledger and the final balance handed to
    [calculateMetrics]. *)
Definition simulate : option LoopState :=
  st ← tradingLoop; closeAtEnd st.

End Loop.

(** The counting loop of [calculateMetrics]:
    [(winningTrades, losingTrades, totalProfit, totalLoss)]. *)
Definition tally (acc : Z * Z * Q * Q) (trade : Trade) : Z * Z * Q * Q :=
  let '(winningTrades, losingTrades, totalProfit, totalLoss) := acc in
  if fgt (PnL trade) 0
  then (add winningTrades 1, losingTrades, (totalProfit + PnL trade)%Q, totalLoss)
  else (winningTrades, add losingTrades 1, totalProfit, (totalLoss + PnL trade)%Q).

(** Reading a Go map: a missing key reads as zero. *)
Definition metric (m : gmap string Q) (key : string) : Q :=
  default 0%Q (m !! key).

(** [calculateMetrics]: the updated [result].  The division by
    [initialBalance] is not guarded in the source. *)
Definition calculateMetrics (result : BacktestResult) (trades : list Trade)
    (initialBalance finalBalance : Q) : BacktestResult :=
  let totalTrades := len trades in
  if totalTrades =? 0
  then mkResult totalTrades (WinningTrades result) (LosingTrades result)
         (WinRate result) (TotalPnL result) (TotalReturn result) (Metrics result)
  else
    let '(winningTrades, losingTrades, totalProfit, totalLoss) :=
      fold_left tally trades (0, 0, 0%Q, 0%Q) in
    let winRate :=
      (inject_Z winningTrades / inject_Z totalTrades * 100)%Q in
    let metrics := Metrics result in
    let metrics :=
      if winningTrades >? 0
      then <["avg_win" := (totalProfit / inject_Z winningTrades)%Q]> metrics
      else metrics in
    let metrics :=
      if losingTrades >? 0
      then <["avg_loss" := (totalLoss / inject_Z losingTrades)%Q]> metrics
      else metrics in
    let totalPnL := (finalBalance - initialBalance)%Q in
    let totalReturn := ((finalBalance / initialBalance - 1) * 100)%Q in
    let metrics :=
      if fne (metric metrics "avg_loss") 0
      then <["profit_factor" := (totalProfit / - totalLoss)%Q]> metrics
      else metrics in
    mkResult totalTrades winningTrades losingTrades winRate totalPnL totalReturn
             metrics.

(** [&models.BacktestResult{Metrics: make(map[string]float64)}]. *)
Definition newResult : BacktestResult := mkResult 0 0 0 0 0 0 ∅.

(** [executeBacktest]. *)
Definition executeBacktest (candles : list Candle)
    (mainCF secondCF atr atrPercent adx plusDI minusDI : list Q)
  : option BacktestResult :=
  st ← simulate candles mainCF secondCF atr atrPercent adx plusDI minusDI;
  Some (calculateMetrics newResult (trades st) initialBalance (currentBalance st)).

End Engine.

(** ** The ADX calculator and the cash balance in float64 arithmetic

    The definitions above compare and select float64 values, which is
    exact.  Where a property depends on the arithmetic itself, the
    definitions of this module round every operation: [x op y] is [rnd] of
    the exact result, each operation on its own (no fused multiply-add, as
    the compiler emits for amd64).  [rnd] is [Binary64.round64] in the
    concrete runs. *)

Module F64.
Section Rounded.

Variable rnd : Q → Q.

Definition fadd (x y : Q) : Q := rnd (x + y).
Definition fsub (x y : Q) : Q := rnd (x - y).
Definition fmul (x y : Q) : Q := rnd (x * y).
Definition fdiv (x y : Q) : Q := rnd (x / y).

(** [math.Max] and [math.Abs] are exact. *)
Definition trueRange (prev cur : Candle) : Q :=
  let highLow := fsub (High cur) (Low cur) in
  let highPrevClose := Qabs (fsub (High cur) (Close prev)) in
  let lowPrevClose := Qabs (fsub (Low cur) (Close prev)) in
  Qmax highLow (Qmax highPrevClose lowPrevClose).

(** The [tr] array: [tr[0] = high - low], then [trueRange]. *)
Definition trSeries (candles : list Candle) : list Q :=
  match candles with
  | [] => []
  | c0 :: rest => fsub (High c0) (Low c0) :: adjacent trueRange c0 rest
  end.

(** The recurrence [out[i] = alpha*x[i] + (1-alpha)*out[i-1]]. *)
Fixpoint emaFrom (alpha prev : Q) (xs : list Q) : list Q :=
  match xs with
  | [] => []
  | x :: rest =>
      let v := fadd (fmul alpha x) (fmul (fsub 1 alpha) prev) in
      v :: emaFrom alpha v rest
  end.

(** [out[0] = x[0]], then the recurrence. *)
Definition ema (alpha : Q) (xs : list Q) : list Q :=
  match xs with
  | [] => []
  | x0 :: rest => x0 :: emaFrom alpha x0 rest
  end.

(** [alpha := 2.0 / float64(period+1)]; the source does not guard
    [period = -1], whose infinite [alpha] this model does not have. *)
Definition smoothing (period : Z) : Q := fdiv 2 (rnd (inject_Z (add period 1))).

Definition plusDMstep (prev cur : Candle) : Q :=
  let highDiff := fsub (High cur) (High prev) in
  let lowDiff := fsub (Low prev) (Low cur) in
  if fgt highDiff lowDiff && fgt highDiff 0 then highDiff else 0%Q.

Definition minusDMstep (prev cur : Candle) : Q :=
  let highDiff := fsub (High cur) (High prev) in
  let lowDiff := fsub (Low prev) (Low cur) in
  if fgt lowDiff highDiff && fgt lowDiff 0 then lowDiff else 0%Q.

(** [plusDI[i]] and [minusDI[i]] from the smoothed values at [i]. *)
Definition diValue (smoothedDM smoothedTR : Q) : Q :=
  if fne smoothedTR 0 then fmul (fdiv smoothedDM smoothedTR) 100 else 0%Q.

Definition dxValue (plusDI minusDI : Q) : Q :=
  let diSum := fadd plusDI minusDI in
  if fne diSum 0
  then let diDiff := Qabs (fsub plusDI minusDI) in fmul (fdiv diDiff diSum) 100
  else 0%Q.

(** [ADXCalculator.Calculate]: [(adx, plusDI, minusDI)]. *)
Definition ADX_Calculate (period : Z) (candles : list Candle)
  : list Q * list Q * list Q :=
  let n := length candles in
  if len candles <? 2 then (replicate n 0%Q, replicate n 0%Q, replicate n 0%Q)
  else
    let alpha := smoothing period in
    let smoothedPlusDM := ema alpha (dmSeries plusDMstep candles) in
    let smoothedMinusDM := ema alpha (dmSeries minusDMstep candles) in
    let smoothedTR := ema alpha (trSeries candles) in
    let plusDI := zip_with diValue smoothedPlusDM smoothedTR in
    let minusDI := zip_with diValue smoothedMinusDM smoothedTR in
    let dx := zip_with dxValue plusDI minusDI in
    (ema alpha dx, plusDI, minusDI).

(** [openPosition]; the constant [0.1] is its nearest float64, and the
    division by [candle.Close] is not guarded in the source (a zero close
    gives an infinite or NaN size, which this model does not have). *)
Definition openPosition (signal : string) (candle : Candle) (atr balance : Q)
  : Position :=
  let size := fdiv (fmul balance (rnd (1 # 10))) (Close candle) in
  if String.eqb signal "LONG"
  then mkPosition signal (Close candle) (Timestamp candle) size
         (fsub (Close candle) (fmul 2 atr)) (fadd (Close candle) (fmul 3 atr))
  else mkPosition signal (Close candle) (Timestamp candle) size
         (fadd (Close candle) (fmul 2 atr)) (fsub (Close candle) (fmul 3 atr)).

(** The assignments to [trade.PnL] that follow both calls of
    [closePosition] in [executeBacktest]. *)
Definition withPnL (position : Position) (trade : Trade) : Trade :=
  let pnl := fmul (fsub (ExitPrice trade) (EntryPrice trade)) (PSize position) in
  let pnl := if String.eqb (PSide position) "SHORT" then (- pnl)%Q else pnl in
  mkTrade (Side trade) (EntryPrice trade) (EntryTime trade) (ExitPrice trade)
          (ExitTime trade) (Size trade) pnl.

(** Closing [position] against [candle]: credit the balance, record the
    trade, go flat. *)
Definition closeInto (st : LoopState) (position : Position) (candle : Candle)
  : LoopState :=
  let trade := closePosition position candle in
  mkLoopState None
              (fadd (currentBalance st) (fmul (ExitPrice trade) (PSize position)))
              (trades st ++ [withPnL position trade]).

Section Loop.

Variable strategy : Strategy.
Variable candles : list Candle.
Variables mainCF secondCF atr atrPercent adx plusDI minusDI : list Q.

(** The body of the trading loop at index [i]. *)
Definition tradingStep (st : LoopState) (i : Z) : option LoopState :=
  candle ← at_index candles i;
  match currentPosition st with
  | None =>
      signal ← checkEntrySignal strategy i mainCF secondCF adx plusDI minusDI
                 atrPercent;
      if String.eqb signal "" then Some st
      else
        atr_i ← at_index atr i;
        let position := openPosition signal candle atr_i (currentBalance st) in
        Some (mkLoopState (Some position)
                (fsub (currentBalance st) (fmul (PSize position) (Close candle)))
                (trades st))
  | Some position =>
      atr_i ← at_index atr i;
      if checkExitSignal i position candle atr_i
      then Some (closeInto st position candle)
      else Some st
  end.

(** The whole loop [for i := 1; i < len(candles); i++]. *)
Definition tradingLoop : option LoopState :=
  forM tradingStep initialState (seqZ 1 (len candles - 1)).

(** "Close any open position at the end". *)
Definition closeAtEnd (st : LoopState) : option LoopState :=
  match currentPosition st with
  | None => Some st
  | Some position =>
      lastCandle ← at_index candles (len candles - 1);
      Some (closeInto st position lastCandle)
  end.

(** The trade ledger and the final balance handed to
    [calculateMetrics]. *)
Definition simulate : option LoopState :=
  st ← tradingLoop; closeAtEnd st.

End Loop.

(** [result.TotalPnL] after [calculateMetrics] on the fresh result: the
    assignment [finalBalance - initialBalance] is skipped when there is no
    trade. *)
Definition TotalPnL (ledger : list Trade) (finalBalance : Q) : Q :=
  if len ledger =? 0 then 0%Q else fsub finalBalance initialBalance.

End Rounded.
End F64.

(** ** CSV upload ([internal/uploader/csv.go]) *)

(** One result of [reader.Read()] before [io.EOF] ends the file: a record
    with a nil error, or an error.  Every sequence of results is covered,
    also those a [csv.Reader] does not produce. *)
Inductive readResult : Type :=
  | Fields (record : list string)
  | ReadError.

(** [models.Candle] as [parseCandle] fills it; [F] stands for the float64
    values, which [strconv.ParseFloat] also returns infinite or NaN. *)
Record ParsedCandle (F : Type) : Type := mkParsedCandle {
  CsvSymbol : string;
  CsvInterval : string;
  CsvTimestamp : Z;
  CsvOpen : F;
  CsvHigh : F;
  CsvLow : F;
  CsvClose : F;
  CsvVolume : F
}.

Section CSVUploader.

Variable F : Type.

(** [strconv.ParseInt(s, 10, 64)] and [strconv.ParseFloat(s, 64)]: [None]
    is a non-nil error. *)
Variable ParseInt : string → option Z.
Variable ParseFloat : string → option F.

(** The database and [db.InsertCandle]: the new state and whether the
    error is nil. *)
Variable DB : Type.
Variable InsertCandle : DB → ParsedCandle F → DB * bool.

(** A computation that may panic (outer [None]) or return an error
    (inner [None]). *)
Definition bindErr {A B : Type} (m : option (option A))
    (k : A → option (option B)) : option (option B) :=
  match m with
  | None => None
  | Some None => Some None
  | Some (Some a) => k a
  end.

(** [parse(record[i])]: the index panics when out of range. *)
Definition parsedField {A : Type} (parse : string → option A)
    (record : list string) (i : nat) : option (option A) :=
  s ← record !! i; Some (parse s).

(** [parseCandle]. *)
Definition parseCandle (record : list string) (symbol interval : string)
  : option (option (ParsedCandle F)) :=
  bindErr (parsedField ParseInt record 0) (fun timestampMs =>
  let timestamp := Z.quot timestampMs 1000 in
  bindErr (parsedField ParseFloat record 1) (fun open =>
  bindErr (parsedField ParseFloat record 2) (fun high =>
  bindErr (parsedField ParseFloat record 3) (fun low =>
  bindErr (parsedField ParseFloat record 4) (fun close =>
  bindErr (parsedField ParseFloat record 5) (fun volume =>
  Some (Some (mkParsedCandle F symbol interval timestamp open high low close
                volume)))))))).

(** [len(record) == 0 || strings.HasPrefix(record[0], "-")]. *)
Definition isSeparator (record : list string) : bool :=
  match record with
  | [] => true
  | first :: _ => String.prefix "-" first
  end.

(** The loop of [UploadCSV] over the remaining reads:
    [(count, failing line, db)], or a panic. *)
Fixpoint uploadLoop (symbol interval : string) (rows : list readResult)
    (count lineNum : Z) (db : DB) : option (Z * option Z * DB) :=
  match rows with
  | [] => Some (count, None, db)
  | row :: rest =>
      let lineNum := add lineNum 1 in
      match row with
      | ReadError => Some (count, Some lineNum, db)
      | Fields record =>
          if isSeparator record then uploadLoop symbol interval rest count lineNum db
          else if len record <? 6
          then uploadLoop symbol interval rest count lineNum db
          else
            match parseCandle record symbol interval with
            | None => None
            | Some None => uploadLoop symbol interval rest count lineNum db
            | Some (Some candle) =>
                let '(db', ok) := InsertCandle db candle in
                if ok : bool
                then uploadLoop symbol interval rest (add count 1) lineNum db'
                else uploadLoop symbol interval rest count lineNum db'
            end
      end
  end.

(** [UploadCSV] once the file is open: the count, the line of the error
    returned (if any) and the database. *)
Definition UploadCSV (rows : list readResult) (symbol interval : string) (db : DB)
  : option (Z * option Z * DB) :=
  uploadLoop symbol interval rows 0 0 db.

End CSVUploader.

(** ** Specification predicates *)

(** A candle is well formed when [low <= high] and [low <= close <= high]. *)
Definition wellFormed (c : Candle) : Prop :=
  (Low c <= High c)%Q ∧ (Low c <= Close c)%Q ∧ (Close c <= High c)%Q.

(** The percentage range of the directional indicators. *)
Definition inPercentRange (x : Q) : Prop := (0 <= x)%Q ∧ (x <= 100)%Q.

(** [a] is a non-negative value below [b]. *)
Definition dominated (a b : Q) : Prop := (0 <= a)%Q ∧ (a <= b)%Q.

(** Timestamps strictly increase along the series. *)
Fixpoint increasingFrom (prev : Z) (cs : list Candle) : Prop :=
  match cs with
  | [] => True
  | c :: rest => prev < Timestamp c ∧ increasingFrom (Timestamp c) rest
  end.

Definition strictlyIncreasing (cs : list Candle) : Prop :=
  match cs with
  | [] => True
  | c :: rest => increasingFrom (Timestamp c) rest
  end.

(** MainCF crosses zero upward at [i] with [ADX[i]] above the threshold
    and [+DI[i] > -DI[i]]. *)
Definition longSignalAt (strategy : Strategy) (mainCF adx plusDI minusDI : list Q)
    (i : Z) : Prop :=
  ∃ m0 m1 a p m,
    at_index mainCF (i - 1) = Some m0 ∧ at_index mainCF i = Some m1 ∧
    at_index adx i = Some a ∧ at_index plusDI i = Some p ∧
    at_index minusDI i = Some m ∧
    (m0 <= 0)%Q ∧ (0 < m1)%Q ∧ (ADXThreshold (Config strategy) < a)%Q ∧ (m < p)%Q.

(** After bar [i] of the trading loop the open position is a LONG entered
    at bar [i], at that candle's close. *)
Definition longEntryAt (strategy : Strategy) (candles : list Candle)
    (mainCF secondCF atr atrPercent adx plusDI minusDI : list Q) (i : Z) : Prop :=
  ∃ st candle position,
    tradingLoopUpto strategy candles mainCF secondCF atr atrPercent adx plusDI
      minusDI i = Some st ∧
    at_index candles i = Some candle ∧
    currentPosition st = Some position ∧
    PSide position = "LONG" ∧
    PEntryPrice position = Close candle ∧
    PEntryTime position = Timestamp candle.

(** After bar [k]: closed trades end after they start, and an open
    position was entered at some bar [j <= k]. *)
Definition timed (candles : list Candle) (k : Z) (st : LoopState) : Prop :=
  Forall (λ trade, EntryTime trade < ExitTime trade) (trades st) ∧
  ∀ position, currentPosition st = Some position →
    ∃ j candle, j <= k ∧ at_index candles j = Some candle ∧
                PEntryTime position = Timestamp candle.

(** The raw price move of a trade, [(exitPrice - entryPrice) * size]. *)
Definition rawMove (trade : Trade) : Q :=
  ((ExitPrice trade - EntryPrice trade) * Size trade)%Q.

Definition isShort (trade : Trade) : bool := String.eqb (Side trade) "SHORT".

Definition sumOver (f : Trade → Q) (ledger : list Trade) : Q :=
  fold_right (fun trade acc => (f trade + acc)%Q) 0%Q ledger.

Definition nonNegative (x : Q) : Prop := (0 <= x)%Q.

(** What the bounds on the indicators use of a rounding: it is monotone
    and odd, and it keeps 0, 1, 2 and 100, which are float64 values. *)
Record Rounding (rnd : Q → Q) : Prop := mkRounding {
  rnd_monotone : ∀ x y, (x <= y)%Q → (rnd x <= rnd y)%Q;
  rnd_opp : ∀ x, (rnd (- x) == - rnd x)%Q;
  rnd_0 : (rnd 0 == 0)%Q;
  rnd_1 : (rnd 1 == 1)%Q;
  rnd_2 : (rnd 2 == 2)%Q;
  rnd_100 : (rnd 100 == 100)%Q
}.

(** The standard model of floating-point arithmetic: a rounding has a
    relative error of at most [2^-53], of the exact and of the rounded
    value. *)
Record Accurate (rnd : Q → Q) : Prop := mkAccurate {
  rnd_error : ∀ x, (Qabs (rnd x - x) <= unitRoundoff * Qabs x)%Q;
  rnd_error_inv : ∀ x, (Qabs (rnd x - x) <= unitRoundoff * Qabs (rnd x))%Q
}.

(** The smoothing weights do not round upward at full scale: one step of
    the recurrence from 100, with input 100, does not exceed 100. *)
Definition steady (rnd : Q → Q) (alpha : Q) : Prop :=
  (F64.fadd rnd (F64.fmul rnd alpha 100)
     (F64.fmul rnd (F64.fsub rnd 1 alpha) 100) <= 100)%Q.

(** One round trip replayed on a balance: debit [size * entryPrice], then
    credit [exitPrice * size]; the side of the trade is not read. *)
Definition openedBalance (rnd : Q → Q) (balance : Q) (trade : Trade) : Q :=
  F64.fsub rnd balance (F64.fmul rnd (Size trade) (EntryPrice trade)).

Definition replayStep (rnd : Q → Q) (balance : Q) (trade : Trade) : Q :=
  F64.fadd rnd (openedBalance rnd balance trade)
    (F64.fmul rnd (ExitPrice trade) (Size trade)).

Definition replay (rnd : Q → Q) (balance : Q) (ledger : list Trade) : Q :=
  fold_left (replayStep rnd) ledger balance.

(** The PnL the code records: the rounded move, negated for a SHORT. *)
Definition signedMove (rnd : Q → Q) (trade : Trade) : Q :=
  let move :=
    F64.fmul rnd (F64.fsub rnd (ExitPrice trade) (EntryPrice trade)) (Size trade) in
  if isShort trade then (- move)%Q else move.

(** After any number of iterations: the recorded PnL are the signed moves
    and the balance is the replay of the ledger, less the debit of the
    open position. *)
Definition settled (rnd : Q → Q) (st : LoopState) : Prop :=
  Forall (λ trade, PnL trade = signedMove rnd trade) (trades st) ∧
  currentBalance st
  = match currentPosition st with
    | None => replay rnd initialBalance (trades st)
    | Some position =>
        F64.fsub rnd (replay rnd initialBalance (trades st))
          (F64.fmul rnd (PSize position) (PEntryPrice position))
    end.

(** MainCF and SecondCF have one value per candle, and MainCF is zero
    below the base window. *)
Definition warmedUp (strategy : Strategy) (candles : list Candle)
    (acc : list Q * list Q) : Prop :=
  length acc.1 = length candles ∧ length acc.2 = length candles ∧
  ∀ j : nat, Z.of_nat j < TotalKlines (Config strategy) →
             (j < length candles)%nat → acc.1 !! j = Some 0%Q.

(** MainCF crosses zero downward at [i] with [ADX[i]] above the threshold
    and [-DI[i] > +DI[i]]. *)
Definition shortSignalAt (strategy : Strategy) (mainCF adx plusDI minusDI : list Q)
    (i : Z) : Prop :=
  ∃ m0 m1 a p m,
    at_index mainCF (i - 1) = Some m0 ∧ at_index mainCF i = Some m1 ∧
    at_index adx i = Some a ∧ at_index plusDI i = Some p ∧
    at_index minusDI i = Some m ∧
    (0 <= m0)%Q ∧ (m1 < 0)%Q ∧ (ADXThreshold (Config strategy) < a)%Q ∧ (p < m)%Q.

(** Every trade of the ledger exits before the next one is entered. *)
Definition sequentialLedger (ledger : list Trade) : Prop :=
  ∀ (i j : nat) earlier later,
    ledger !! i = Some earlier → ledger !! j = Some later → (i < j)%nat →
    ExitTime earlier < EntryTime later.

(** After bar [k]: the ledger is sequential, every exit happened at a bar
    [j <= k], and an open position was entered at a bar [j <= k], after
    every exit. *)
Definition serial (candles : list Candle) (k : Z) (st : LoopState) : Prop :=
  sequentialLedger (trades st) ∧
  Forall (λ trade, ∃ j candle, j <= k ∧ at_index candles j = Some candle ∧
                               ExitTime trade = Timestamp candle) (trades st) ∧
  ∀ position, currentPosition st = Some position →
    (∃ j candle, j <= k ∧ at_index candles j = Some candle ∧
                 PEntryTime position = Timestamp candle) ∧
    Forall (λ trade, ExitTime trade < PEntryTime position) (trades st).

(** The trades [calculateMetrics] counts as winning, and the PnL it adds
    to [totalProfit] and to [totalLoss]. *)
Definition isWin (trade : Trade) : bool := fgt (PnL trade) 0.
Definition wins (ledger : list Trade) : Z :=
  Z.of_nat (length (List.filter isWin ledger)).
Definition winPnL (trade : Trade) : Q := if isWin trade then PnL trade else 0%Q.
Definition lossPnL (trade : Trade) : Q := if isWin trade then 0%Q else PnL trade.

(** The records that reach [parseCandle]. *)
Definition isData (row : readResult) : bool :=
  match row with
  | Fields record => negb (isSeparator record) && negb (len record <? 6)
  | ReadError => true
  end.

(** What a caller sees apart from the line number: the count, whether an
    error came back, and the database. *)
Definition uploadOutcome {DB : Type} (r : Z * option Z * DB) : Z * bool * DB :=
  (r.1.1, bool_decide (is_Some r.1.2), r.2).

(** ** Concrete inputs *)

Module Samples.

(** [int(x)] of an unrepresentable [x] on amd64: the "integer
    indefinite" value. *)
Definition amd64_indefinite (n d : Q) : Z := int_min.

(** A quiet market: five identical candles at price 100. *)
Definition flatCandle (ts : Z) : Candle := mkCandle ts 100 100 100 100 1.
Definition flatSeries : list Candle := map flatCandle [1; 2; 3; 4; 5].

(** Five candles whose lows touch zero. *)
Definition zeroLowCandle (ts : Z) : Candle := mkCandle ts 1 2 0 1 1.
Definition zeroLowSeries : list Candle := map zeroLowCandle [1; 2; 3; 4; 5].

(** Base window 4, amplitude 0.05, epsilon 0.001, adaptive bounds
    [2, 100]. *)
Definition wideConfig : StrategyConfig :=
  mkConfig 4 (5 # 100) 1 (1 # 1000) 2 100 3 25.

(** The same with adaptive bounds [2, 5] and [SecondTotalKlinesMin = 0]. *)
Definition narrowConfig : StrategyConfig :=
  mkConfig 4 (5 # 100) 1 (1 # 1000) 2 5 0 25.

(** Base window 20 outside the adaptive bounds [5, 10]. *)
Definition outsideConfig : StrategyConfig :=
  mkConfig 20 (5 # 100) 1 (1 # 1000) 5 10 3 25.

(** Base window 4 below the adaptive bounds [5, 10]. *)
Definition belowConfig : StrategyConfig :=
  mkConfig 4 (5 # 100) 1 (1 # 1000) 5 10 3 25.

(** ADX threshold 25. *)
Definition strat : Strategy := mkStrategy narrowConfig.

(** Candles with high 101, low 99, close 100. *)
Definition bar (ts : Z) : Candle := mkCandle ts 100 101 99 100 1.
Definition bars (n : Z) : list Candle := map bar (seqZ 1 n).

(** Indicator arrays: a strong trend ([ADX = 30]), upward
    ([+DI = 20 > -DI = 10]) or downward, with [ATR = 1]. *)
Definition strong (n : nat) : list Q := replicate n 30%Q.
Definition above (n : nat) : list Q := replicate n 20%Q.
Definition below (n : nat) : list Q := replicate n 10%Q.
Definition unit (n : nat) : list Q := replicate n 1%Q.

(** An upward crossing at index 1. *)
Definition crossAtOne : list Q := [0; 1]%Q.

(** Upward crossings at indices 2 and 4. *)
Definition crossTwice : list Q := [0; 0; 5; -1; 2]%Q.

(** An upward crossing at the final index 2 of three candles. *)
Definition crossAtEnd : list Q := [0; 0; 5]%Q.

(** A downward crossing at index 2 of four candles. *)
Definition crossDown : list Q := [0; 0; -5; -5]%Q.

(** Eight candles rising by 10 per bar, each with a range of 10. *)
Definition rising (i : Z) : Candle :=
  mkCandle i (inject_Z (95 + 10 * i)) (inject_Z (100 + 10 * i))
    (inject_Z (90 + 10 * i)) (inject_Z (95 + 10 * i)) 1.
Definition risingSeries : list Candle := map rising (seqZ 1 8).

(** The three candles of the specification's ATR example. *)
Definition atrSeries3 : list Candle :=
  [mkCandle 1 9 10 8 9 1; mkCandle 2 10 11 9 10 1; mkCandle 3 8 9 7 8 1].

(** Three well-formed candles for the directional indicators. *)
Definition dmSeries3 : list Candle :=
  [mkCandle 1 9 10 8 9 1; mkCandle 2 10 12 9 11 1; mkCandle 3 10 12 9 10 1].

(** A LONG opened at close 100 with ATR 2 (stop 96, target 106) while the
    balance is 10000, and a later candle with low 95 and high 97. *)
Definition longPosition : Position := openPosition "LONG" (bar 3) 2 10000.
Definition stopCandle : Candle := mkCandle 4 97 97 95 96 1.
Definition stopSeries : list Candle := [bar 1; bar 2; bar 3; stopCandle].
Definition heldState : LoopState := mkLoopState (Some longPosition) 9000 [].

(** 381 candles climbing one unit per bar: low [i], high and close
    [i + 1]. *)
Definition stair (i : Z) : Candle :=
  mkCandle i (inject_Z i) (inject_Z (i + 1)) (inject_Z i) (inject_Z (i + 1)) 1.
Definition staircase : list Candle := map stair (seqZ 0 381).

(** Three bars at close 100, then a fall through 97 that stays below 102. *)
Definition dropCandle : Candle := mkCandle 4 98 99 95 96 1.
Definition dropSeries : list Candle := [bar 1; bar 2; bar 3; dropCandle].

(** Three candles at close 104, then a rise through 110 that stays above
    100; an upward crossing at index 2. *)
Definition quote (ts : Z) : Candle := mkCandle ts 104 105 103 104 1.
Definition rallyCandle : Candle := mkCandle 4 108 111 107 110 1.
Definition rallySeries : list Candle := [quote 1; quote 2; quote 3; rallyCandle].
Definition crossUp : list Q := [0; 0; 5; 5]%Q.

(** A winning and a losing closed trade. *)
Definition winner : Trade := mkTrade "LONG" 100 3 105 4 10 50.
Definition loser : Trade := mkTrade "SHORT" 100 5 103 6 10 (-30).
Definition ledger : list Trade := [winner; loser].

(** The state of the trading loop after a SHORT entered at bar 2 of four
    bars. *)
Definition shortPosition : Position := openPosition "SHORT" (bar 3) 1 initialBalance.
Definition shortState : LoopState :=
  mkLoopState (Some shortPosition)
    (initialBalance - PSize shortPosition * Close (bar 3)) [].

(** The reads of a CSV file: a separator line, a data line, a line whose
    open price does not parse, then a failing read. *)
Definition csvRows : list readResult :=
  [Fields ["-"; "-"; "-"; "-"; "-"; "-"];
   Fields ["1000"; "1"; "2"; "0"; "1"; "5"];
   Fields ["2000"; "x"; "2"; "0"; "1"; "5"]; ReadError].

(** Parsers that reject ["x"] only, and a database that appends. *)
Definition parseIntStub (s : string) : option Z := Some 1000.
Definition parseFloatStub (s : string) : option Q :=
  if String.eqb s "x" then None else Some 1%Q.
Definition appendCandle (db : list (ParsedCandle Q)) (candle : ParsedCandle Q)
  : list (ParsedCandle Q) * bool := (db ++ [candle], true).

End Samples.

(** * Properties *)

(** ** Machine integers, slices, comparisons *)

Lemma wrap_id z : in_int z → wrap z = z.
Proof.
  unfold in_int, int_min, int_max, wrap. intros H.
  rewrite Z.mod_small; lia.
Qed.

Lemma wrap_range z : in_int (wrap z).
Proof.
  unfold in_int, int_min, int_max, wrap.
  pose proof (Z.mod_pos_bound (z + 2 ^ 63) (2 ^ 64) ltac:(lia)). lia.
Qed.

Lemma wrap_le z : int_min <= z → wrap z <= z.
Proof.
  intros Hz. destruct (Z_le_gt_dec z int_max) as [Hle|Hgt].
  - rewrite wrap_id; [lia|]. by split.
  - pose proof (wrap_range z) as [_ Hr]. lia.
Qed.

Lemma slice_Some {A} (s w : list A) lo hi :
  slice s lo hi = Some w →
  0 <= lo ∧ lo <= hi ∧ hi <= len s ∧ len w = hi - lo.
Proof.
  unfold slice, len. intros H.
  destruct (Z.leb_spec 0 lo); simpl in H; [|discriminate].
  destruct (Z.leb_spec lo hi); simpl in H; [|discriminate].
  destruct (Z.leb_spec hi (Z.of_nat (length s))); simpl in H; [|discriminate].
  injection H as <-. rewrite length_take, length_drop. lia.
Qed.

Lemma slice_is_Some {A} (s : list A) lo hi :
  0 <= lo → lo <= hi → hi <= len s →
  slice s lo hi = Some (take (Z.to_nat (hi - lo)) (drop (Z.to_nat lo) s)).
Proof.
  unfold slice, len. intros H1 H2 H3.
  destruct (Z.leb_spec 0 lo); [|lia].
  destruct (Z.leb_spec lo hi); [|lia].
  destruct (Z.leb_spec hi (Z.of_nat (length s))); [|lia]. reflexivity.
Qed.

Lemma feq_true x y : feq x y = true ↔ (x == y)%Q.
Proof. apply Qeq_bool_iff. Qed.

Lemma feq_false x y : feq x y = false ↔ ¬ (x == y)%Q.
Proof.
  unfold feq. rewrite <- Qeq_bool_iff. destruct (Qeq_bool x y); split; congruence.
Qed.

Lemma fle_true x y : fle x y = true ↔ (x <= y)%Q.
Proof. apply Qle_bool_iff. Qed.

Lemma fle_false x y : fle x y = false ↔ (y < x)%Q.
Proof.
  unfold fle. split.
  - intros H. apply Qnot_le_lt. rewrite <- Qle_bool_iff. congruence.
  - intros H. apply not_true_is_false. rewrite Qle_bool_iff.
    by apply Qlt_not_le.
Qed.

Lemma fge_true x y : fge x y = true ↔ (y <= x)%Q.
Proof. apply Qle_bool_iff. Qed.

Lemma fgt_true x y : fgt x y = true ↔ (y < x)%Q.
Proof. unfold fgt. rewrite negb_true_iff. apply fle_false. Qed.

Lemma fgt_false x y : fgt x y = false ↔ (x <= y)%Q.
Proof. unfold fgt. rewrite negb_false_iff. apply fle_true. Qed.

Lemma flt_true x y : flt x y = true ↔ (x < y)%Q.
Proof. unfold flt. rewrite negb_true_iff. apply fle_false. Qed.

Lemma fne_true x y : fne x y = true ↔ ¬ (x == y)%Q.
Proof. unfold fne. rewrite negb_true_iff. apply feq_false. Qed.

(** ** Loops *)

Lemma forM_invariant {S : Type} (body : S → Z → option S) (P : S → Prop) idxs :
  (∀ s i s', i ∈ idxs → P s → body s i = Some s' → P s') →
  ∀ s s', P s → forM body s idxs = Some s' → P s'.
Proof.
  induction idxs as [|i rest IH]; intros Hstep s s' Hs Hrun; simpl in Hrun.
  - by injection Hrun as <-.
  - destruct (body s i) as [s1|] eqn:Hb; simpl in Hrun; [|discriminate].
    apply (IH (λ s0 j s0' Hj, Hstep s0 j s0' (list_elem_of_further _ _ _ Hj)) s1 s');
      [|done].
    apply (Hstep s i s1); [left|done|done].
Qed.

Lemma forM_app {S : Type} (body : S → Z → option S) s xs ys :
  forM body s (xs ++ ys) = s' ← forM body s xs; forM body s' ys.
Proof.
  revert s. induction xs as [|x xs IH]; intros s; simpl; [done|].
  destruct (body s x); simpl; [apply IH|done].
Qed.

(** ** The adaptive window of MainCF *)

Lemma clamp_bounds v lo hi : lo <= hi → lo <= clamp v lo hi <= hi.
Proof.
  intros H. unfold clamp.
  destruct (Z.ltb_spec v lo); [lia|].
  destruct (Z.gtb_spec v hi); lia.
Qed.

(** C1 (as amended).  Whenever [CalculateMainCF] returns, the window size
    [newTotalKlines] is the base size [TotalKlines], unchanged, in the two
    degenerate cases ([t < TotalKlines], or a zero [lowWindow] over the base
    window); otherwise it is the clamped value, which lies in
    [[NewTotalKlinesMin, NewTotalKlinesMax]] as soon as
    [NewTotalKlinesMin <= NewTotalKlinesMax].  Hence it is always within the
    bounds when [TotalKlines] itself is. *)
Theorem CalculateMainCF_window_size ii cfg candles t prevCF cf n :
  CalculateMainCF ii cfg candles t prevCF = Some (cf, n) →
  (t < TotalKlines cfg → n = TotalKlines cfg) ∧
  (TotalKlines cfg <= t →
     ∃ window,
       slice candles (add (sub t (TotalKlines cfg)) 1) (add t 1) = Some window ∧
       ((findMinLow window == 0)%Q → n = TotalKlines cfg) ∧
       (¬ (findMinLow window == 0)%Q →
        NewTotalKlinesMin cfg <= NewTotalKlinesMax cfg →
        NewTotalKlinesMin cfg <= n <= NewTotalKlinesMax cfg)) ∧
  (NewTotalKlinesMin cfg <= TotalKlines cfg <= NewTotalKlinesMax cfg →
   NewTotalKlinesMin cfg <= n <= NewTotalKlinesMax cfg).
Proof.
  unfold CalculateMainCF. intros H.
  destruct (Z.ltb_spec t (TotalKlines cfg)) as [Hlt|Hge].
  - injection H as <- <-. repeat split; try lia.
  - destruct (calculateNewTotalKlines ii cfg candles t) as [k|] eqn:Hk;
      simpl in H; [|discriminate].
    destruct (slice candles (add (sub t k) 1) (add t 1)) as [w|] eqn:Hw;
      simpl in H; [|discriminate].
    injection H as <- <-.
    unfold calculateNewTotalKlines in Hk.
    destruct (slice candles (add (sub t (TotalKlines cfg)) 1) (add t 1))
      as [base|] eqn:Hbase; simpl in Hk; [|discriminate].
    destruct (feq (findMinLow base) 0) eqn:Hlow.
    + injection Hk as <-. apply feq_true in Hlow.
      split; [lia|]. split; [|lia].
      intros _. exists base. split; [reflexivity|]. split; [reflexivity|].
      intros Hne. contradiction.
    + injection Hk as <-. apply feq_false in Hlow.
      split; [lia|]. split.
      * intros _. exists base. split; [reflexivity|]. split.
        -- intros Heq. contradiction.
        -- intros _ Hmm. apply clamp_bounds, Hmm.
      * intros Hin. apply clamp_bounds. lia.
Qed.

(** The theorem applied to the quiet market under bounds [2, 5]: the
    computed size 200 is clamped to 5. *)
Lemma CalculateMainCF_window_size_witness :
  NewTotalKlinesMin Samples.narrowConfig <= 5
  <= NewTotalKlinesMax Samples.narrowConfig.
Proof.
  assert (CalculateMainCF Samples.amd64_indefinite Samples.narrowConfig
            Samples.flatSeries 4 0 = Some ((0 # 20000)%Q, 5)) as Hrun
    by (vm_compute; reflexivity).
  apply (CalculateMainCF_window_size _ _ _ _ _ _ _ Hrun).
  vm_compute. split; discriminate.
Defined.

(** C1 (as stated) fails: with [t < TotalKlines] the base size 20 is
    returned although the bounds are [5, 10]; with a zero [lowWindow] the
    base size 4 is returned although the bounds are [5, 10]. *)
Lemma CalculateMainCF_window_size_counterexample :
  (CalculateMainCF Samples.amd64_indefinite Samples.outsideConfig
     Samples.flatSeries 4 0 = Some (0%Q, 20) ∧
   ¬ (NewTotalKlinesMin Samples.outsideConfig <= 20
      <= NewTotalKlinesMax Samples.outsideConfig)) ∧
  (∃ cf, CalculateMainCF Samples.amd64_indefinite Samples.belowConfig
           Samples.zeroLowSeries 4 0 = Some (cf, 4) ∧
         ¬ (NewTotalKlinesMin Samples.belowConfig <= 4
            <= NewTotalKlinesMax Samples.belowConfig)).
Proof.
  split.
  - split; [reflexivity|]. simpl. lia.
  - eexists. split; [vm_compute; reflexivity|]. simpl. lia.
Qed.

Lemma add_id x y : in_int (x + y) → add x y = x + y.
Proof. apply wrap_id. Qed.

Lemma sub_id x y : in_int (x - y) → sub x y = x - y.
Proof. apply wrap_id. Qed.

(** When the whole range of adaptive sizes fits below [t + 1], the window
    extraction stays inside the candle slice and [CalculateMainCF]
    returns. *)
Lemma CalculateMainCF_returns ii cfg candles t prevCF :
  0 <= TotalKlines cfg <= t → t < len candles → len candles <= int_max →
  0 <= NewTotalKlinesMin cfg →
  NewTotalKlinesMin cfg <= NewTotalKlinesMax cfg →
  NewTotalKlinesMax cfg <= t + 1 →
  ∃ cf n, CalculateMainCF ii cfg candles t prevCF = Some (cf, n).
Proof.
  intros Htk Ht Hlen Hmin Hmm Hmax.
  assert (∀ k, 0 <= k <= t + 1 →
               ∃ w, slice candles (add (sub t k) 1) (add t 1) = Some w) as Hslice.
  { intros k Hk. unfold int_max in Hlen.
    rewrite sub_id by (unfold in_int, int_min, int_max; lia).
    rewrite !add_id by (unfold in_int, int_min, int_max; lia).
    eexists. apply slice_is_Some; lia. }
  unfold CalculateMainCF.
  destruct (Z.ltb_spec t (TotalKlines cfg)); [lia|].
  unfold calculateNewTotalKlines.
  destruct (Hslice (TotalKlines cfg)) as [base ->]; [lia|]. simpl.
  destruct (feq (findMinLow base) 0); simpl.
  - destruct (Hslice (TotalKlines cfg)) as [w ->]; [lia|]. simpl. eauto.
  - match goal with |- context [clamp ?v ?lo ?hi] =>
      pose proof (clamp_bounds v lo hi Hmm) as Hc;
      destruct (Hslice (clamp v lo hi)) as [w ->]; [lia|]
    end.
    simpl. eauto.
Qed.

(** C2 fails on the code.  With base window 4, bounds [2, 100] and five
    flat candles, index [t = 4] satisfies [TotalKlines <= t < len]; the
    adaptive size is 100, the window would start at [4 - 100 + 1 = -95],
    and [CalculateMainCF] panics on the slice. *)
Theorem CalculateMainCF_panics_on_wide_window ii :
  TotalKlines Samples.wideConfig <= 4 < len Samples.flatSeries ∧
  calculateNewTotalKlines ii Samples.wideConfig Samples.flatSeries 4 = Some 100 ∧
  slice Samples.flatSeries (add (sub 4 100) 1) (add 4 1) = None ∧
  CalculateMainCF ii Samples.wideConfig Samples.flatSeries 4 0 = None.
Proof.
  split; [vm_compute; split; [discriminate|reflexivity]|].
  split; [reflexivity|]. split; reflexivity.
Qed.

(** The example of the specification: base window 4, eight rising candles,
    epsilon 0.001.  The amplitude of the base window (40/140) exceeds the
    target 0.05 and the window shrinks below the base size. *)
Example adaptive_window_shrinks ii :
  calculateNewTotalKlines ii Samples.wideConfig Samples.risingSeries 7 = Some 2 ∧
  2 < TotalKlines Samples.wideConfig ∧
  CalculateMainCF ii Samples.wideConfig Samples.risingSeries 7 0 = Some (0%Q, 2).
Proof. split; [reflexivity|]. split; reflexivity. Qed.

(** ** SecondCF in the indicator pass *)

Section SecondCF.

Variable ii : Q → Q → Z.
Variable cfg : StrategyConfig.

Lemma calculateSecondTotalKlines_zero prev :
  calculateSecondTotalKlines ii cfg 0 prev = SecondTotalKlinesMin cfg.
Proof. reflexivity. Qed.

(** Entry index at the last position, [mainCFEntry = 0]: a call that
    returns, returns zero. *)
Lemma CalculateSecondCF_at_last upto i prev r :
  0 <= i → len upto <= i + 1 →
  CalculateSecondCF ii cfg upto i 0 prev = Some r →
  r = (0%Q, SecondTotalKlinesMin cfg).
Proof.
  intros Hi Hlen. unfold CalculateSecondCF.
  rewrite calculateSecondTotalKlines_zero.
  destruct (Z.geb_spec (add i (SecondTotalKlinesMin cfg)) (len upto)) as [Hge|Hlt].
  - by intros [= <-].
  - destruct (slice upto i (add i (SecondTotalKlinesMin cfg))) as [w|] eqn:Hw;
      simpl; [|discriminate].
    apply slice_Some in Hw as (_ & Hlo & _ & Hw).
    assert (w = []) as ->.
    { destruct w; [done|]. unfold len in *. simpl in Hw. lia. }
    by intros [= <-].
Qed.

(** The call does return when the minimum is not negative. *)
Lemma CalculateSecondCF_total upto i prev :
  0 <= i → len upto = i + 1 →
  0 <= SecondTotalKlinesMin cfg → i + SecondTotalKlinesMin cfg <= int_max →
  CalculateSecondCF ii cfg upto i 0 prev = Some (0%Q, SecondTotalKlinesMin cfg).
Proof.
  intros Hi Hlen Hmin Hmax. unfold CalculateSecondCF.
  rewrite calculateSecondTotalKlines_zero.
  unfold add. rewrite wrap_id by (unfold in_int, int_min, int_max in *; lia).
  destruct (Z.geb_spec (i + SecondTotalKlinesMin cfg) (len upto)) as [Hge|Hlt];
    [done|].
  assert (SecondTotalKlinesMin cfg = 0) as -> by lia.
  rewrite Z.add_0_r.
  rewrite slice_is_Some by lia. simpl.
  rewrite Z.sub_diag. simpl. reflexivity.
Qed.

End SecondCF.

Lemma cfIndicatorsStep_second ii strategy prev candles acc i acc' :
  0 <= i →
  acc.2 = replicate (length candles) 0%Q →
  cfIndicatorsStep ii strategy prev candles acc i = Some acc' →
  acc'.2 = replicate (length candles) 0%Q.
Proof.
  intros Hi Hacc. unfold cfIndicatorsStep.
  destruct (Z.eqb_spec i 0) as [->|Hne]; [by intros [= <-]|].
  destruct (slice candles 0 (add i 1)) as [upto|] eqn:Hup; simpl; [|discriminate].
  destruct (CalculateMainCF _ _ upto i 0) as [main|]; simpl; [|discriminate].
  destruct (CalculateSecondCF _ _ upto i 0 prev) as [second|] eqn:Hsec;
    simpl; [|discriminate].
  intros [= <-]. simpl.
  apply slice_Some in Hup as (_ & Hpos & Hle & Hlen).
  assert (add i 1 <= i + 1) as Hadd
    by (apply wrap_le; unfold int_min; lia).
  apply CalculateSecondCF_at_last in Hsec; [|lia|lia].
  subst second. simpl. rewrite Hacc. apply insert_replicate.
Qed.

(** C9.  For every candle series and every strategy configuration, the
    SecondCF series produced by the indicator pass is zero at every index.
    Each call is made with [mainCFEntry = 0], which forces
    [secondTotalKlines] to [SecondTotalKlinesMin], and with the entry index
    at the last position of the slice passed in; such a call can only return
    the pair [(0, SecondTotalKlinesMin)], and it does return it whenever
    [SecondTotalKlinesMin] is not negative. *)
Theorem secondCF_identically_zero ii strategy prev candles :
  (∀ mainCF secondCF,
     calculateCFIndicators ii strategy prev candles = Some (mainCF, secondCF) →
     secondCF = replicate (length candles) 0%Q) ∧
  (∀ i upto,
     0 <= i → len upto = i + 1 →
     calculateSecondTotalKlines ii (Config strategy) 0 prev
       = SecondTotalKlinesMin (Config strategy) ∧
     (∀ r, CalculateSecondCF ii (Config strategy) upto i 0 prev = Some r →
           r = (0%Q, SecondTotalKlinesMin (Config strategy))) ∧
     (0 <= SecondTotalKlinesMin (Config strategy) →
      i + SecondTotalKlinesMin (Config strategy) <= int_max →
      CalculateSecondCF ii (Config strategy) upto i 0 prev
        = Some (0%Q, SecondTotalKlinesMin (Config strategy)))).
Proof.
  split.
  - intros mainCF secondCF Hrun. unfold calculateCFIndicators in Hrun.
    change secondCF with (mainCF, secondCF).2.
    revert Hrun.
    apply (forM_invariant _ (λ acc, acc.2 = replicate (length candles) 0%Q));
      [|done].
    intros acc i acc' Hi Hacc Hstep.
    apply elem_of_seqZ in Hi.
    eapply cfIndicatorsStep_second; [|exact Hacc|exact Hstep]. lia.
  - intros i upto Hi Hlen. split; [reflexivity|]. split.
    + intros r. apply CalculateSecondCF_at_last; lia.
    + intros. by apply CalculateSecondCF_total.
Qed.

(** The theorem applied to the quiet market: the pass completes and its
    SecondCF series is five zeros. *)
Lemma secondCF_identically_zero_witness :
  ∃ mainCF,
    calculateCFIndicators Samples.amd64_indefinite Samples.strat 7
      Samples.flatSeries = Some (mainCF, replicate 5 0%Q).
Proof.
  assert (∃ mainCF secondCF,
            calculateCFIndicators Samples.amd64_indefinite Samples.strat 7
              Samples.flatSeries = Some (mainCF, secondCF))
    as (mainCF & secondCF & Hrun) by (do 2 eexists; vm_compute; reflexivity).
  exists mainCF. rewrite Hrun.
  rewrite (proj1 (secondCF_identically_zero _ _ _ _) _ _ Hrun). reflexivity.
Defined.

(** ** ATR *)

(** C7 (as amended).  For a series of at least two candles the ATR series
    starts with [high[0] - low[0]]; for a single candle the guard
    [len(candles) < 2] returns the zero-filled series. *)
Theorem ATR_first_value period c0 c1 rest :
  ATR_Calculate period (c0 :: c1 :: rest) !! 0%nat = Some (High c0 - Low c0)%Q ∧
  ATR_Calculate period [c0] = [0%Q].
Proof.
  split; [|reflexivity].
  unfold ATR_Calculate.
  destruct (Z.ltb_spec (len (c0 :: c1 :: rest)) 2) as [Hlt|_].
  - unfold len in Hlt. simpl in Hlt. lia.
  - reflexivity.
Qed.

(** C7 (as stated) fails: for the single candle with high 10 and low 8 the
    ATR series is [[0]], not [[2]]. *)
Lemma ATR_first_value_counterexample :
  ATR_Calculate 14 [mkCandle 1 9 10 8 9 1] !! 0%nat = Some 0%Q ∧
  ¬ (0 == High (mkCandle 1 9 10 8 9 1) - Low (mkCandle 1 9 10 8 9 1))%Q.
Proof.
  split; [reflexivity|]. simpl. intros H. vm_compute in H. discriminate.
Qed.

(** The example of the specification: period 2 gives [alpha = 2/3],
    [TR = [2, 2, 3]] and [ATR = [2, 2, 8/3]]. *)
Example ATR_example :
  Forall2 Qeq (trSeries Samples.atrSeries3) [2; 2; 3]%Q ∧
  (smoothing 2 == 2 # 3)%Q ∧
  Forall2 Qeq (ATR_Calculate 2 Samples.atrSeries3) [2; 2; 8 # 3]%Q.
Proof. split; [|split]; [repeat constructor| reflexivity |repeat constructor]. Qed.

(** The series has the length of its input. *)
Lemma length_adjacent f prev cs : length (adjacent f prev cs) = length cs.
Proof. revert prev. induction cs; intros; simpl; [done|]. by rewrite IHcs. Qed.

Lemma length_emaFrom alpha prev xs : length (emaFrom alpha prev xs) = length xs.
Proof. revert prev. induction xs; intros; simpl; [done|]. by rewrite IHxs. Qed.

Lemma length_ema alpha xs : length (ema alpha xs) = length xs.
Proof. destruct xs; simpl; [done|]. by rewrite length_emaFrom. Qed.

Lemma length_trSeries candles : length (trSeries candles) = length candles.
Proof. destruct candles; simpl; [done|]. by rewrite length_adjacent. Qed.

Lemma length_ATR_Calculate period candles :
  length (ATR_Calculate period candles) = length candles.
Proof.
  unfold ATR_Calculate. destruct (len candles <? 2).
  - apply length_replicate.
  - by rewrite length_ema, length_trSeries.
Qed.

(** ** Metrics *)

(** C8.  On an empty trade ledger the aggregation only stores
    [TotalTrades = 0] and returns: the fresh result keeps
    [WinningTrades = LosingTrades = 0], [WinRate = TotalPnL = TotalReturn = 0]
    and a metrics map without [profit_factor], [avg_win] or [avg_loss]. *)
Theorem calculateMetrics_no_trades initial final :
  (∀ result,
     calculateMetrics result [] initial final
     = mkResult 0 (WinningTrades result) (LosingTrades result) (WinRate result)
         (TotalPnL result) (TotalReturn result) (Metrics result)) ∧
  calculateMetrics newResult [] initial final = newResult ∧
  TotalTrades (calculateMetrics newResult [] initial final) = 0 ∧
  WinningTrades (calculateMetrics newResult [] initial final) = 0 ∧
  LosingTrades (calculateMetrics newResult [] initial final) = 0 ∧
  WinRate (calculateMetrics newResult [] initial final) = 0%Q ∧
  TotalPnL (calculateMetrics newResult [] initial final) = 0%Q ∧
  TotalReturn (calculateMetrics newResult [] initial final) = 0%Q ∧
  Metrics (calculateMetrics newResult [] initial final) !! "profit_factor" = None ∧
  Metrics (calculateMetrics newResult [] initial final) !! "avg_win" = None ∧
  Metrics (calculateMetrics newResult [] initial final) !! "avg_loss" = None.
Proof.
  split; [reflexivity|].
  repeat split; apply lookup_empty.
Qed.

(** ** float64 rounding *)

Lemma two_not_0 : ¬ (2 == 0)%Q.
Proof. discriminate. Qed.

Lemma pow2_pos k : (0 < 2 ^ k)%Q.
Proof. apply Qpower_0_lt. reflexivity. Qed.

Lemma pow2_succ k : (2 ^ (k + 1) == 2 * 2 ^ k)%Q.
Proof. rewrite Qpower_plus by apply two_not_0. rewrite Qpower_1_r. ring. Qed.

Lemma pow2_of_Z (a : Z) : 0 <= a → (inject_Z (2 ^ a) == 2 ^ a)%Q.
Proof. intros Ha. by rewrite Zpower_Qpower. Qed.

Lemma Zlog2_Q (n : Z) :
  0 < n → (2 ^ Z.log2 n <= inject_Z n)%Q ∧ (inject_Z n < 2 ^ (Z.log2 n + 1))%Q.
Proof.
  intros Hn. destruct (Z.log2_spec n Hn) as [Hlo Hhi].
  pose proof (Z.log2_nonneg n) as Hnn.
  rewrite <- !pow2_of_Z by lia. split.
  - by rewrite <- Zle_Qle.
  - rewrite <- Zlt_Qlt. by replace (Z.log2 n + 1) with (Z.succ (Z.log2 n)) by lia.
Qed.

Lemma ilog2_spec x :
  (0 < x)%Q → (2 ^ ilog2 x <= x)%Q ∧ (x < 2 ^ (ilog2 x + 1))%Q.
Proof.
  intros Hx. unfold ilog2.
  set (a := Z.log2 (Qnum x)). set (b := Z.log2 (Z.pos (Qden x))).
  assert (0 < Qnum x) as Hnum.
  { destruct x as [n d]. unfold Qlt in Hx. simpl in *. lia. }
  destruct (Zlog2_Q (Qnum x) Hnum) as [Hn1 Hn2]. fold a in Hn1, Hn2.
  destruct (Zlog2_Q (Z.pos (Qden x))) as [Hd1 Hd2]; [lia|]. fold b in Hd1, Hd2.
  assert (x * inject_Z (Z.pos (Qden x)) == inject_Z (Qnum x))%Q as Hxd.
  { destruct x as [n d]. simpl. unfold Qeq, Qmult, inject_Z. simpl. lia. }
  set (N := inject_Z (Qnum x)) in *. set (D := inject_Z (Z.pos (Qden x))) in *.
  pose proof (pow2_pos a) as Hpa. pose proof (pow2_pos b) as Hpb.
  assert (x < 2 ^ (a - b + 1))%Q as Hupper.
  { replace (a - b + 1) with (a + 1 - b) by lia.
    rewrite Qpower_minus by apply two_not_0.
    apply Qlt_shift_div_l; [done|]. nra. }
  assert (2 ^ (a - b - 1) < x)%Q as Hlower.
  { replace (a - b - 1) with (a - (b + 1)) by lia.
    rewrite Qpower_minus by apply two_not_0.
    pose proof (pow2_pos (b + 1)).
    apply Qlt_shift_div_r; [done|]. nra. }
  destruct (Qle_bool (2 ^ (a - b)) x) eqn:Hcmp.
  - apply Qle_bool_iff in Hcmp. done.
  - assert (x < 2 ^ (a - b))%Q as Hlt.
    { apply Qnot_le_lt. intros Hle. apply Qle_bool_iff in Hle. congruence. }
    split; [by apply Qlt_le_weak|].
    by replace (a - b - 1 + 1) with (a - b) by lia.
Qed.

Lemma ilog2_unique x k :
  (2 ^ k <= x)%Q → (x < 2 ^ (k + 1))%Q → ilog2 x = k.
Proof.
  intros Hlo Hhi.
  assert (0 < x)%Q as Hx by (pose proof (pow2_pos k); lra).
  destruct (ilog2_spec x Hx) as [Hlo' Hhi'].
  assert (ilog2 x < k + 1).
  { apply (Qpower_lt_compat_l_inv 2); [lra|reflexivity]. }
  assert (k < ilog2 x + 1).
  { apply (Qpower_lt_compat_l_inv 2); [lra|reflexivity]. }
  lia.
Qed.

Lemma ilog2_comp x y : (0 < x)%Q → (x == y)%Q → ilog2 x = ilog2 y.
Proof.
  intros Hx Hxy. destruct (ilog2_spec x Hx) as [Hlo Hhi].
  symmetry. apply ilog2_unique; lra.
Qed.

Lemma ilog2_monotone x y : (0 < x)%Q → (x <= y)%Q → ilog2 x <= ilog2 y.
Proof.
  intros Hx Hxy. destruct (ilog2_spec x Hx) as [Hlo _].
  destruct (ilog2_spec y) as [_ Hhi]; [lra|].
  assert (ilog2 x < ilog2 y + 1).
  { apply (Qpower_lt_compat_l_inv 2); [lra|reflexivity]. }
  lia.
Qed.

(** *** Rounding to the nearest integer *)

Lemma rne_bounds m : Qfloor m <= rne m <= Qfloor m + 1.
Proof.
  unfold rne. destruct (_ ?= _)%Q; [destruct (Z.even _)|..]; lia.
Qed.

Lemma rne_error m : (Qabs (inject_Z (rne m) - m) <= 1 # 2)%Q.
Proof.
  unfold rne. pose proof (Qfloor_le m) as Hlo. pose proof (Qlt_floor m) as Hhi.
  rewrite inject_Z_plus in Hhi. change (inject_Z 1) with 1%Q in Hhi.
  apply Qabs_Qle_condition.
  destruct (Qcompare_spec (m - inject_Z (Qfloor m)) (1 # 2)) as [He|Hl|Hg];
    [destruct (Z.even (Qfloor m))|..];
    rewrite ?inject_Z_plus; change (inject_Z 1) with 1%Q; split; lra.
Qed.

Lemma rne_Z z : rne (inject_Z z) = z.
Proof.
  unfold rne. rewrite Qfloor_Z.
  destruct (Qcompare_spec (inject_Z z - inject_Z z) (1 # 2)) as [He|Hl|Hg];
    [lra|done|lra].
Qed.

Lemma rne_comp m m' : (m == m')%Q → rne m = rne m'.
Proof.
  intros Hm. unfold rne. rewrite (Qfloor_comp m m' Hm).
  assert ((m - inject_Z (Qfloor m') ?= 1 # 2)%Q
          = (m' - inject_Z (Qfloor m') ?= 1 # 2)%Q) as ->; [|done].
  apply Qcompare_comp; [by rewrite Hm|reflexivity].
Qed.

Lemma rne_monotone m m' : (m <= m')%Q → rne m <= rne m'.
Proof.
  intros Hm. pose proof (Qfloor_resp_le m m' Hm) as Hf.
  destruct (Z.eq_dec (Qfloor m) (Qfloor m')) as [Heq|Hne].
  - unfold rne. rewrite Heq.
    destruct (Qcompare_spec (m - inject_Z (Qfloor m')) (1 # 2)) as [He|Hl|Hg];
      destruct (Qcompare_spec (m' - inject_Z (Qfloor m')) (1 # 2)) as [He'|Hl'|Hg'];
      destruct (Z.even (Qfloor m')); try lia; exfalso; lra.
  - pose proof (rne_bounds m). pose proof (rne_bounds m'). lia.
Qed.

(** *** Rounding a positive number *)

Lemma significand_range x :
  (0 < x)%Q →
  (2 ^ 52 <= x / 2 ^ (ilog2 x - 52))%Q ∧ (x / 2 ^ (ilog2 x - 52) < 2 ^ 53)%Q.
Proof.
  intros Hx. destruct (ilog2_spec x Hx) as [Hlo Hhi].
  pose proof (pow2_pos (ilog2 x - 52)) as He.
  assert (2 ^ ilog2 x == 2 ^ 52 * 2 ^ (ilog2 x - 52))%Q as Hk.
  { rewrite <- Qpower_plus by apply two_not_0. by replace (52 + (ilog2 x - 52)) with (ilog2 x) by lia. }
  assert (2 ^ (ilog2 x + 1) == 2 ^ 53 * 2 ^ (ilog2 x - 52))%Q as Hk'.
  { rewrite <- Qpower_plus by apply two_not_0. by replace (53 + (ilog2 x - 52)) with (ilog2 x + 1) by lia. }
  split.
  - apply Qle_shift_div_l; [done|]. lra.
  - apply Qlt_shift_div_r; [done|]. lra.
Qed.

Lemma roundPos_range x :
  (0 < x)%Q →
  (2 ^ ilog2 x <= roundPos x)%Q ∧ (roundPos x <= 2 ^ (ilog2 x + 1))%Q.
Proof.
  intros Hx. destruct (significand_range x Hx) as [Hlo Hhi].
  unfold roundPos. set (e := ilog2 x - 52) in *. set (m := (x / 2 ^ e)%Q) in *.
  pose proof (pow2_pos e) as He.
  assert (2 ^ 52 <= rne m <= 2 ^ 53) as [Hr1 Hr2].
  { split.
    - rewrite <- (rne_Z (2 ^ 52)). apply rne_monotone.
      rewrite pow2_of_Z by lia. done.
    - rewrite <- (rne_Z (2 ^ 53)). apply rne_monotone.
      rewrite pow2_of_Z by lia. lra. }
  rewrite Zle_Qle in Hr1, Hr2. rewrite pow2_of_Z in Hr1, Hr2 by lia.
  assert (2 ^ ilog2 x == 2 ^ 52 * 2 ^ e)%Q as ->.
  { rewrite <- Qpower_plus by apply two_not_0. by replace (52 + e) with (ilog2 x) by lia. }
  assert (2 ^ (ilog2 x + 1) == 2 ^ 53 * 2 ^ e)%Q as ->.
  { rewrite <- Qpower_plus by apply two_not_0. by replace (53 + e) with (ilog2 x + 1) by lia. }
  split; nra.
Qed.

Lemma roundPos_pos x : (0 < x)%Q → (0 < roundPos x)%Q.
Proof.
  intros Hx. destruct (roundPos_range x Hx) as [Hlo _].
  pose proof (pow2_pos (ilog2 x)). lra.
Qed.

Lemma roundPos_comp x y : (0 < x)%Q → (x == y)%Q → (roundPos x == roundPos y)%Q.
Proof.
  intros Hx Hxy. unfold roundPos. rewrite (ilog2_comp x y Hx Hxy).
  rewrite (rne_comp (x / 2 ^ (ilog2 y - 52)) (y / 2 ^ (ilog2 y - 52))); [done|].
  by rewrite Hxy.
Qed.

Lemma roundPos_monotone x y :
  (0 < x)%Q → (x <= y)%Q → (roundPos x <= roundPos y)%Q.
Proof.
  intros Hx Hxy. assert (0 < y)%Q as Hy by lra.
  pose proof (ilog2_monotone x y Hx Hxy) as Hk.
  destruct (Z.eq_dec (ilog2 x) (ilog2 y)) as [Heq|Hne].
  - unfold roundPos. rewrite Heq. pose proof (pow2_pos (ilog2 y - 52)) as He.
    assert (rne (x / 2 ^ (ilog2 y - 52)) <= rne (y / 2 ^ (ilog2 y - 52))) as Hr.
    { apply rne_monotone. apply Qle_shift_div_l; [done|].
      assert (x / 2 ^ (ilog2 y - 52) * 2 ^ (ilog2 y - 52) == x)%Q as ->
          by (field; lra).
      assert (y / 2 ^ (ilog2 y - 52) * 2 ^ (ilog2 y - 52) == y)%Q as Hy'
          by (field; lra).
      lra. }
    rewrite Zle_Qle in Hr. nra.
  - destruct (roundPos_range x Hx) as [_ Hhi].
    destruct (roundPos_range y Hy) as [Hlo _].
    assert (2 ^ (ilog2 x + 1) <= 2 ^ ilog2 y)%Q.
    { apply Qpower_le_compat_l; [lia|lra]. }
    lra.
Qed.

Lemma roundPos_error x :
  (0 < x)%Q → (Qabs (roundPos x - x) <= unitRoundoff * 2 ^ ilog2 x)%Q.
Proof.
  intros Hx. unfold roundPos. set (e := ilog2 x - 52). set (m := (x / 2 ^ e)%Q).
  pose proof (pow2_pos e) as He.
  assert (x == m * 2 ^ e)%Q as Hxm by (unfold m; field; lra).
  pose proof (rne_error m) as Herr.
  apply Qabs_Qle_condition in Herr. apply Qabs_Qle_condition.
  assert (unitRoundoff * 2 ^ ilog2 x == (1 # 2) * 2 ^ e)%Q as ->.
  { assert (2 ^ ilog2 x == 2 ^ 52 * 2 ^ e)%Q as ->.
    { rewrite <- Qpower_plus by apply two_not_0.
      by replace (52 + e) with (ilog2 x) by (unfold e; lia). }
    assert (unitRoundoff * 2 ^ 52 == 1 # 2)%Q as Hu by reflexivity.
    rewrite Qmult_assoc, Hu. reflexivity. }
  set (r := inject_Z (rne m)) in *. set (p := (2 ^ e)%Q) in *.
  assert (0 <= (r - m + (1 # 2)) * p)%Q by nra.
  assert (0 <= ((1 # 2) - (r - m)) * p)%Q by nra.
  split; nra.
Qed.

(** *** [round64] *)

Lemma round64_pos x : (0 < x)%Q → (round64 x == roundPos x)%Q.
Proof.
  intros Hx. unfold round64.
  destruct (Qcompare_spec x 0) as [He|Hl|Hg]; [lra|lra|apply Qred_correct].
Qed.

Lemma round64_neg x : (x < 0)%Q → (round64 x == - roundPos (- x))%Q.
Proof.
  intros Hx. unfold round64.
  destruct (Qcompare_spec x 0) as [He|Hl|Hg]; [lra|apply Qred_correct|lra].
Qed.

Lemma round64_zero x : (x == 0)%Q → (round64 x == 0)%Q.
Proof.
  intros Hx. unfold round64.
  destruct (Qcompare_spec x 0) as [He|Hl|Hg]; [reflexivity|lra|lra].
Qed.

Lemma round64_comp x y : (x == y)%Q → (round64 x == round64 y)%Q.
Proof.
  intros Hxy. destruct (Q_dec x 0) as [[Hneg|Hpos]|Hzero].
  - rewrite (round64_neg x Hneg), (round64_neg y) by lra.
    rewrite (roundPos_comp (- x) (- y)); [reflexivity|lra|lra].
  - rewrite (round64_pos x Hpos), (round64_pos y) by lra.
    apply roundPos_comp; done.
  - rewrite (round64_zero x Hzero), (round64_zero y) by lra. reflexivity.
Qed.

Lemma round64_opp x : (round64 (- x) == - round64 x)%Q.
Proof.
  destruct (Q_dec x 0) as [[Hneg|Hpos]|Hzero].
  - rewrite (round64_neg x Hneg), (round64_pos (- x)) by lra. lra.
  - rewrite (round64_pos x Hpos), (round64_neg (- x)) by lra.
    rewrite (roundPos_comp (- - x) x); [reflexivity|lra|lra].
  - rewrite (round64_zero x Hzero), (round64_zero (- x)) by lra. lra.
Qed.

Lemma round64_monotone x y : (x <= y)%Q → (round64 x <= round64 y)%Q.
Proof.
  intros Hxy.
  assert (∀ z, (0 < z)%Q → (0 < round64 z)%Q) as Hsign.
  { intros z Hz. rewrite (round64_pos z Hz). by apply roundPos_pos. }
  assert (∀ z, (z < 0)%Q → (round64 z < 0)%Q) as Hsign'.
  { intros z Hz. rewrite (round64_neg z Hz).
    pose proof (roundPos_pos (- z)). lra. }
  destruct (Q_dec x 0) as [[Hx|Hx]|Hx]; destruct (Q_dec y 0) as [[Hy|Hy]|Hy];
    try lra.
  - rewrite (round64_neg x Hx), (round64_neg y Hy).
    pose proof (roundPos_monotone (- y) (- x)). lra.
  - pose proof (Hsign' x Hx). pose proof (Hsign y Hy). lra.
  - pose proof (Hsign' x Hx). rewrite (round64_zero y Hy). lra.
  - rewrite (round64_pos x Hx), (round64_pos y Hy).
    by apply roundPos_monotone.
  - pose proof (Hsign y Hy). rewrite (round64_zero x Hx). lra.
  - rewrite (round64_zero x Hx), (round64_zero y Hy). lra.
Qed.

Lemma round64_error_pos x :
  (0 < x)%Q →
  (Qabs (round64 x - x) <= unitRoundoff * x)%Q ∧
  (Qabs (round64 x - x) <= unitRoundoff * round64 x)%Q.
Proof.
  intros Hx. rewrite (round64_pos x Hx).
  pose proof (roundPos_error x Hx) as Herr.
  destruct (ilog2_spec x Hx) as [Hlo _].
  destruct (roundPos_range x Hx) as [Hlo' _].
  assert (0 < unitRoundoff)%Q as Hu by reflexivity.
  split; nra.
Qed.

Lemma round64_error x :
  (Qabs (round64 x - x) <= unitRoundoff * Qabs x)%Q ∧
  (Qabs (round64 x - x) <= unitRoundoff * Qabs (round64 x))%Q.
Proof.
  destruct (Q_dec x 0) as [[Hneg|Hpos]|Hzero].
  - destruct (round64_error_pos (- x)) as [H1 H2]; [lra|].
    rewrite round64_opp in H1, H2.
    assert (- round64 x - - x == - (round64 x - x))%Q as Hflip by ring.
    rewrite Hflip, Qabs_opp in H1, H2.
    rewrite <- (Qabs_opp x), <- (Qabs_opp (round64 x)).
    assert (0 < - round64 x)%Q.
    { rewrite (round64_neg x Hneg).
      pose proof (roundPos_pos (- x)). lra. }
    rewrite (Qabs_pos (- x)) by lra. rewrite (Qabs_pos (- round64 x)) by lra.
    done.
  - destruct (round64_error_pos x Hpos) as [H1 H2].
    assert (0 < round64 x)%Q.
    { rewrite (round64_pos x Hpos). by apply roundPos_pos. }
    rewrite (Qabs_pos x) by lra. rewrite (Qabs_pos (round64 x)) by lra. done.
  - rewrite (round64_zero x Hzero). rewrite Hzero. split; by vm_compute.
Qed.

(** The float64 nearest to 0.1 and to 2/15; 1 and 100 are float64
    values. *)
Example round64_samples :
  round64 (1 # 10) = (3602879701896397 # 36028797018963968)%Q ∧
  round64 100 = 100%Q ∧ round64 1 = 1%Q ∧
  round64 (2 # 15) = (4803839602528529 # 36028797018963968)%Q.
Proof. vm_compute. done. Qed.

(** ** ADX, +DI and -DI in float64 arithmetic *)

Lemma Forall2_zip_with {A B C} (R : A → B → Prop) (P : C → Prop) (f : A → B → C)
    xs ys :
  (∀ a b, R a b → P (f a b)) → Forall2 R xs ys → Forall P (zip_with f xs ys).
Proof. intros Hf. induction 1; simpl; constructor; auto. Qed.

Lemma Forall_zip_with_both {A B C} (P : A → Prop) (Q : B → Prop) (R : C → Prop)
    (f : A → B → C) xs ys :
  (∀ a b, P a → Q b → R (f a b)) → Forall P xs → Forall Q ys →
  Forall R (zip_with f xs ys).
Proof.
  intros Hf Hxs. revert ys. induction Hxs as [|x xs Hx _ IH]; intros ys Hys;
    simpl; [constructor|].
  destruct Hys as [|y ys Hy Hys]; constructor; auto.
Qed.

Lemma Forall_replicate_zero n : Forall inPercentRange (replicate n 0%Q).
Proof. apply Forall_replicate. split; lra. Qed.

Lemma round64_Rounding : Rounding Binary64.round64.
Proof.
  split.
  - apply round64_monotone.
  - apply round64_opp.
  - reflexivity.
  - reflexivity.
  - reflexivity.
  - reflexivity.
Qed.

Section RoundedFacts.
Variable rnd : Q → Q.
Hypothesis rounding : Rounding rnd.

Lemma rnd_proper x y : (x == y)%Q → (rnd x == rnd y)%Q.
Proof.
  intros Hxy. apply Qle_antisym; apply (rnd_monotone rnd rounding); lra.
Qed.

Lemma rnd_nonneg x : (0 <= x)%Q → (0 <= rnd x)%Q.
Proof.
  intros Hx. rewrite <- (rnd_0 rnd rounding). by apply (rnd_monotone rnd rounding).
Qed.

Lemma rnd_le_1 x : (x <= 1)%Q → (rnd x <= 1)%Q.
Proof.
  intros Hx. rewrite <- (rnd_1 rnd rounding). by apply (rnd_monotone rnd rounding).
Qed.

Lemma rnd_le_100 x : (x <= 100)%Q → (rnd x <= 100)%Q.
Proof.
  intros Hx. rewrite <- (rnd_100 rnd rounding). by apply (rnd_monotone rnd rounding).
Qed.

Lemma rnd_abs x : (Qabs (rnd x) == rnd (Qabs x))%Q.
Proof.
  destruct (Qlt_le_dec x 0) as [Hneg|Hpos].
  - rewrite (rnd_proper (Qabs x) (- x)) by (apply Qabs_neg; lra).
    assert (rnd x <= 0)%Q.
    { rewrite <- (rnd_0 rnd rounding). apply (rnd_monotone rnd rounding). lra. }
    rewrite Qabs_neg by done. by rewrite (rnd_opp rnd rounding).
  - rewrite (rnd_proper (Qabs x) x) by (by apply Qabs_pos).
    apply Qabs_pos. by apply rnd_nonneg.
Qed.

Section Smoothing.
Variable alpha : Q.
Hypothesis alpha_lo : (0 <= alpha)%Q.
Hypothesis alpha_hi : (alpha <= 1)%Q.

Local Abbreviation step :=
  (fun x p => F64.fadd rnd (F64.fmul rnd alpha x)
                (F64.fmul rnd (F64.fsub rnd 1 alpha) p)).

Lemma weight_nonneg : (0 <= F64.fsub rnd 1 alpha)%Q.
Proof. apply rnd_nonneg. lra. Qed.

Lemma ema_step_monotone x y p q :
  (x <= y)%Q → (p <= q)%Q → (step x p <= step y q)%Q.
Proof.
  intros Hxy Hpq. pose proof weight_nonneg as Hw.
  unfold F64.fadd, F64.fmul.
  apply (rnd_monotone rnd rounding).
  assert (rnd (alpha * x) <= rnd (alpha * y))%Q
    by (apply (rnd_monotone rnd rounding); nra).
  assert (rnd (F64.fsub rnd 1 alpha * p) <= rnd (F64.fsub rnd 1 alpha * q))%Q
    by (apply (rnd_monotone rnd rounding); nra).
  lra.
Qed.

Lemma ema_step_zero : (step 0 0 == 0)%Q.
Proof.
  unfold F64.fadd, F64.fmul.
  rewrite <- (rnd_0 rnd rounding) at 3. apply rnd_proper.
  rewrite (rnd_proper (alpha * 0) 0) by ring.
  rewrite (rnd_proper (F64.fsub rnd 1 alpha * 0) 0) by ring.
  rewrite (rnd_0 rnd rounding). ring.
Qed.

Lemma ema_step_dominated x y p q :
  dominated x y → dominated p q → dominated (step x p) (step y q).
Proof.
  intros [Hx Hxy] [Hp Hpq]. split.
  - rewrite <- ema_step_zero. by apply ema_step_monotone.
  - by apply ema_step_monotone.
Qed.

Lemma emaFrom_dominated xs ys :
  Forall2 dominated xs ys → ∀ p q, dominated p q →
  Forall2 dominated (F64.emaFrom rnd alpha p xs) (F64.emaFrom rnd alpha q ys).
Proof.
  induction 1 as [|x y xs ys Hxy _ IH]; intros p q Hpq; simpl; constructor.
  - by apply ema_step_dominated.
  - apply IH. by apply ema_step_dominated.
Qed.

Lemma ema_dominated xs ys :
  Forall2 dominated xs ys →
  Forall2 dominated (F64.ema rnd alpha xs) (F64.ema rnd alpha ys).
Proof.
  destruct 1 as [|x y xs ys Hxy Hrest]; simpl; constructor; [done|].
  by apply emaFrom_dominated.
Qed.

Lemma emaFrom_nonNegative xs :
  Forall nonNegative xs → ∀ p, nonNegative p →
  Forall nonNegative (F64.emaFrom rnd alpha p xs).
Proof.
  induction 1 as [|x xs Hx _ IH]; intros p Hp; simpl; constructor.
  - unfold nonNegative. rewrite <- ema_step_zero. by apply ema_step_monotone.
  - apply IH. unfold nonNegative. rewrite <- ema_step_zero.
    by apply ema_step_monotone.
Qed.

Lemma emaFrom_range xs :
  steady rnd alpha →
  Forall inPercentRange xs → ∀ p, inPercentRange p →
  Forall inPercentRange (F64.emaFrom rnd alpha p xs).
Proof.
  intros Hsteady.
  assert (∀ x p, inPercentRange x → inPercentRange p → inPercentRange (step x p))
    as Hstep.
  { intros x p [Hx0 Hx1] [Hp0 Hp1]. split.
    - rewrite <- ema_step_zero. by apply ema_step_monotone.
    - unfold steady in Hsteady.
      pose proof (ema_step_monotone x 100 p 100 Hx1 Hp1) as Hmono.
      cbv beta in Hmono. lra. }
  induction 1 as [|x xs Hx _ IH]; intros p Hp; simpl; constructor.
  - by apply Hstep.
  - apply IH. by apply Hstep.
Qed.

Lemma ema_nonNegative xs :
  Forall nonNegative xs → Forall nonNegative (F64.ema rnd alpha xs).
Proof.
  destruct 1 as [|x xs Hx Hrest]; simpl; constructor; [done|].
  by apply emaFrom_nonNegative.
Qed.

Lemma ema_range xs :
  steady rnd alpha →
  Forall inPercentRange xs → Forall inPercentRange (F64.ema rnd alpha xs).
Proof.
  intros Hsteady. destruct 1 as [|x xs Hx Hrest]; simpl; constructor; [done|].
  by apply emaFrom_range.
Qed.

End Smoothing.

Lemma diValue_range a b : dominated a b → inPercentRange (F64.diValue rnd a b).
Proof.
  unfold dominated, inPercentRange, F64.diValue. intros [Ha Hab].
  destruct (fne b 0) eqn:Hb; [|split; lra].
  apply fne_true in Hb.
  assert (0 < b)%Q as Hpos.
  { destruct (Qlt_le_dec 0 b) as [|Hle]; [done|]. exfalso. apply Hb. lra. }
  assert (0 <= a / b)%Q by (apply Qle_shift_div_l; [done|lra]).
  assert (a / b <= 1)%Q by (apply Qle_shift_div_r; [done|lra]).
  unfold F64.fmul, F64.fdiv.
  pose proof (rnd_nonneg (a / b)). pose proof (rnd_le_1 (a / b)).
  split; [apply rnd_nonneg|apply rnd_le_100]; nra.
Qed.

Lemma dxValue_range p m :
  inPercentRange p → inPercentRange m → inPercentRange (F64.dxValue rnd p m).
Proof.
  unfold inPercentRange, F64.dxValue. intros [Hp _] [Hm _].
  destruct (fne (F64.fadd rnd p m) 0) eqn:Hs; [|split; lra].
  apply fne_true in Hs. unfold F64.fadd, F64.fsub, F64.fmul, F64.fdiv in *.
  assert (0 <= rnd (p + m))%Q as Hsum by (apply rnd_nonneg; lra).
  assert (0 < rnd (p + m))%Q as Hpos.
  { destruct (Qlt_le_dec 0 (rnd (p + m))) as [|Hle]; [done|]. exfalso. apply Hs. lra. }
  pose proof (Qabs_nonneg (rnd (p - m))) as Habs.
  assert (Qabs (rnd (p - m)) <= rnd (p + m))%Q as Hle.
  { rewrite rnd_abs. apply (rnd_monotone rnd rounding).
    apply Qabs_case; intros; lra. }
  assert (0 <= Qabs (rnd (p - m)) / rnd (p + m))%Q
    by (apply Qle_shift_div_l; [done|lra]).
  assert (Qabs (rnd (p - m)) / rnd (p + m) <= 1)%Q
    by (apply Qle_shift_div_r; [done|lra]).
  pose proof (rnd_nonneg (Qabs (rnd (p - m)) / rnd (p + m))).
  pose proof (rnd_le_1 (Qabs (rnd (p - m)) / rnd (p + m))).
  split; [apply rnd_nonneg|apply rnd_le_100]; nra.
Qed.

(** The true range bounds each of the rounded moves it is the maximum of. *)
Lemma trueRange_lower prev cur :
  (rnd (High cur - Low cur) <= F64.trueRange rnd prev cur)%Q ∧
  (rnd (High cur - Close prev) <= F64.trueRange rnd prev cur)%Q ∧
  (rnd (Close prev - Low cur) <= F64.trueRange rnd prev cur)%Q.
Proof.
  unfold F64.trueRange, F64.fsub.
  set (a := rnd (High cur - Low cur)).
  set (b := Qabs (rnd (High cur - Close prev))).
  set (c := Qabs (rnd (Low cur - Close prev))).
  pose proof (Q.le_max_l a (Qmax b c)).
  pose proof (Q.le_max_r a (Qmax b c)).
  pose proof (Q.le_max_l b c).
  pose proof (Q.le_max_r b c).
  pose proof (Qle_Qabs (rnd (High cur - Close prev))).
  pose proof (Qabs_opp (rnd (Low cur - Close prev))) as Hopp.
  pose proof (Qle_Qabs (- rnd (Low cur - Close prev))).
  assert (rnd (Close prev - Low cur) == - rnd (Low cur - Close prev))%Q as Hflip.
  { rewrite <- (rnd_opp rnd rounding). apply rnd_proper. ring. }
  subst a b c. repeat split; try lra.
Qed.

Lemma plusDMstep_dominated prev cur :
  wellFormed prev → wellFormed cur →
  dominated (F64.plusDMstep rnd prev cur) (F64.trueRange rnd prev cur).
Proof.
  unfold wellFormed, dominated, F64.plusDMstep, F64.fsub.
  intros (? & ? & ?) (? & ? & ?).
  pose proof (trueRange_lower prev cur) as (Hhl & Hhc & Hcl).
  assert (0 <= rnd (High cur - Low cur))%Q by (apply rnd_nonneg; lra).
  destruct (fgt (rnd (High cur - High prev)) (rnd (Low prev - Low cur)));
    simpl; [|split; lra].
  destruct (fgt (rnd (High cur - High prev)) 0) eqn:Hpos; [|split; lra].
  apply fgt_true in Hpos.
  assert (rnd (High cur - High prev) <= rnd (High cur - Close prev))%Q
    by (apply (rnd_monotone rnd rounding); lra).
  split; lra.
Qed.

Lemma minusDMstep_dominated prev cur :
  wellFormed prev → wellFormed cur →
  dominated (F64.minusDMstep rnd prev cur) (F64.trueRange rnd prev cur).
Proof.
  unfold wellFormed, dominated, F64.minusDMstep, F64.fsub.
  intros (? & ? & ?) (? & ? & ?).
  pose proof (trueRange_lower prev cur) as (Hhl & Hhc & Hcl).
  assert (0 <= rnd (High cur - Low cur))%Q by (apply rnd_nonneg; lra).
  destruct (fgt (rnd (Low prev - Low cur)) (rnd (High cur - High prev)));
    simpl; [|split; lra].
  destruct (fgt (rnd (Low prev - Low cur)) 0) eqn:Hpos; [|split; lra].
  apply fgt_true in Hpos.
  assert (rnd (Low prev - Low cur) <= rnd (Close prev - Low cur))%Q
    by (apply (rnd_monotone rnd rounding); lra).
  split; lra.
Qed.

Lemma adjacent_dominated step :
  (∀ prev cur, wellFormed prev → wellFormed cur →
               dominated (step prev cur) (F64.trueRange rnd prev cur)) →
  ∀ cs prev, wellFormed prev → Forall wellFormed cs →
  Forall2 dominated (adjacent step prev cs) (adjacent (F64.trueRange rnd) prev cs).
Proof.
  intros Hstep. induction cs as [|cur rest IH]; intros prev Hprev Hcs; simpl;
    [constructor|].
  apply Forall_cons in Hcs as [Hcur Hrest].
  constructor; [by apply Hstep|by apply IH].
Qed.

Lemma dmSeries_dominated step candles :
  (∀ prev cur, wellFormed prev → wellFormed cur →
               dominated (step prev cur) (F64.trueRange rnd prev cur)) →
  Forall wellFormed candles →
  Forall2 dominated (dmSeries step candles) (F64.trSeries rnd candles).
Proof.
  intros Hstep Hwf. destruct candles as [|c0 rest]; simpl; [constructor|].
  apply Forall_cons in Hwf as [H0 Hrest].
  constructor; [|by apply adjacent_dominated].
  destruct H0 as (? & _). split; [lra|]. apply rnd_nonneg. lra.
Qed.

(** A period of at least 1 gives a smoothing factor in [[0, 1]]. *)
Lemma smoothing_range period :
  1 <= period → period < int_max →
  (0 <= F64.smoothing rnd period)%Q ∧ (F64.smoothing rnd period <= 1)%Q.
Proof.
  intros Hlo Hhi. unfold F64.smoothing, F64.fdiv, add.
  rewrite wrap_id by (unfold in_int, int_min, int_max in *; lia).
  assert (2 <= inject_Z (period + 1))%Q as Hden.
  { change 2%Q with (inject_Z 2). rewrite <- Zle_Qle. lia. }
  assert (2 <= rnd (inject_Z (period + 1)))%Q as Hden'.
  { rewrite <- (rnd_2 rnd rounding) at 1. by apply (rnd_monotone rnd rounding). }
  split.
  - apply rnd_nonneg. apply Qle_shift_div_l; lra.
  - apply rnd_le_1. apply Qle_shift_div_r; lra.
Qed.

End RoundedFacts.


Lemma dmSeries3_wellFormed : Forall wellFormed Samples.dmSeries3.
Proof. repeat constructor; by vm_compute. Defined.


Lemma staircase_wellFormed : Forall wellFormed Samples.staircase.
Proof.
  apply Forall_forall. intros c Hc.
  apply list_elem_of_fmap in Hc as (i & -> & Hi).
  apply elem_of_seqZ in Hi. unfold wellFormed, Samples.stair. simpl.
  rewrite <- !Zle_Qle. lia.
Qed.


(** ** The trading loop: entries and exits *)

Lemma at_index_Some {A} (a : list A) i x :
  at_index a i = Some x ↔ 0 <= i ∧ a !! Z.to_nat i = Some x.
Proof.
  unfold at_index. destruct (Z.ltb_spec i 0); split.
  - discriminate.
  - intros [? _]. lia.
  - intros. split; [lia|done].
  - by intros [_ ?].
Qed.

Lemma openPosition_entry signal candle v balance :
  PEntryPrice (openPosition signal candle v balance) = Close candle ∧
  PEntryTime (openPosition signal candle v balance) = Timestamp candle ∧
  PSide (openPosition signal candle v balance) = signal.
Proof. unfold openPosition. by destruct (String.eqb signal "LONG"). Qed.

Section LoopFacts.

Variable strategy : Strategy.
Variable candles : list Candle.
Variables mainCF secondCF atr atrPercent adx plusDI minusDI : list Q.

Local Abbreviation step :=
  (tradingStep strategy candles mainCF secondCF atr atrPercent adx plusDI minusDI).
Local Abbreviation upto :=
  (tradingLoopUpto strategy candles mainCF secondCF atr atrPercent adx plusDI
     minusDI).

(** The loop up to bar [i] is the loop up to [i - 1] followed by the
    body at [i]. *)
Lemma tradingLoopUpto_succ i :
  1 <= i → upto i = st ← upto (i - 1); step st i.
Proof.
  intros Hi. unfold tradingLoopUpto.
  replace (seqZ 1 i) with (seqZ 1 ((i - 1) + 1)) by (f_equal; lia).
  rewrite (seqZ_app 1 (i - 1) 1) by lia. rewrite forM_app.
  replace (1 + (i - 1)) with i by lia.
  assert (seqZ i 1 = [i]) as -> by (cbn; f_equal; lia).
  destruct (forM _ initialState (seqZ 1 (i - 1))) as [st|]; simpl; [|done].
  by destruct (step st i).
Qed.

Lemma checkEntrySignal_long i :
  2 <= i → longSignalAt strategy mainCF adx plusDI minusDI i →
  checkEntrySignal strategy i mainCF secondCF adx plusDI minusDI atrPercent
    = Some "LONG".
Proof.
  intros Hi (m0 & m1 & a & p & m & H0 & H1 & Ha & Hp & Hm & C0 & C1 & Ca & Cp).
  unfold checkEntrySignal.
  destruct (Z.ltb_spec i 2); [lia|].
  rewrite H0, H1, Ha, Hp, Hm. simpl.
  apply fgt_true in C1. apply fle_true in C0.
  apply fgt_true in Ca. apply fgt_true in Cp.
  rewrite C1. simpl. rewrite C0. simpl. rewrite Ca. simpl. rewrite Cp. done.
Qed.

(** C3 (as amended).  When MainCF crosses zero upward at index [i] with
    [ADX[i]] above the threshold and [+DI[i] > -DI[i]], and moreover
    [i >= 2], bar [i] is inside the series and no position is open when
    bar [i] is reached, the simulator opens a LONG position at bar [i]:
    entry price the close of candle [i], entry time its timestamp. *)
Theorem long_entry_at_crossing i st candle v :
  2 <= i →
  upto (i - 1) = Some st →
  currentPosition st = None →
  at_index candles i = Some candle →
  at_index atr i = Some v →
  longSignalAt strategy mainCF adx plusDI minusDI i →
  upto i = Some (mkLoopState
                   (Some (openPosition "LONG" candle v (currentBalance st)))
                   (currentBalance st
                    - PSize (openPosition "LONG" candle v (currentBalance st))
                      * Close candle)%Q
                   (trades st)) ∧
  longEntryAt strategy candles mainCF secondCF atr atrPercent adx plusDI
    minusDI i.
Proof.
  intros Hi Hprev Hflat Hc Hv Hsig.
  assert (upto i = Some (mkLoopState
                   (Some (openPosition "LONG" candle v (currentBalance st)))
                   (currentBalance st
                    - PSize (openPosition "LONG" candle v (currentBalance st))
                      * Close candle)%Q
                   (trades st))) as Hrun.
  { rewrite tradingLoopUpto_succ by lia. rewrite Hprev. simpl.
    unfold tradingStep. rewrite Hc. simpl. rewrite Hflat.
    rewrite (checkEntrySignal_long i Hi Hsig). simpl. rewrite Hv. done. }
  split; [exact Hrun|].
  exists (mkLoopState
            (Some (openPosition "LONG" candle v (currentBalance st)))
            (currentBalance st
             - PSize (openPosition "LONG" candle v (currentBalance st))
               * Close candle)%Q
            (trades st)), candle,
         (openPosition "LONG" candle v (currentBalance st)).
  repeat split; done.
Qed.

(** C5.  When the body of the loop closes the open position at bar [i]
    (the bar's range crossed the stop-loss or the take-profit), the
    recorded exit price is the triggered level.  For a LONG the
    stop-loss is checked first: [low <= stopLoss] exits at the stop-loss
    whatever the high, and only otherwise does [high >= takeProfit] exit
    at the take-profit; for any other side the stop-loss
    ([high >= stopLoss]) comes before the take-profit
    ([low <= takeProfit]). *)
Theorem exit_price_is_triggered_level st i st' position candle :
  currentPosition st = Some position →
  at_index candles i = Some candle →
  step st i = Some st' →
  currentPosition st' = None →
  st' = closeInto st position candle ∧
  ∃ trade,
    trades st' = trades st ++ [trade] ∧
    ExitTime trade = Timestamp candle ∧
    if String.eqb (PSide position) "LONG"
    then ((Low candle <= StopLoss position)%Q →
          ExitPrice trade = StopLoss position) ∧
         ((StopLoss position < Low candle)%Q →
          (TakeProfit position <= High candle)%Q ∧
          ExitPrice trade = TakeProfit position)
    else ((StopLoss position <= High candle)%Q →
          ExitPrice trade = StopLoss position) ∧
         ((High candle < StopLoss position)%Q →
          (Low candle <= TakeProfit position)%Q ∧
          ExitPrice trade = TakeProfit position).
Proof.
  intros Hpos Hc Hstep Hflat. unfold tradingStep in Hstep.
  rewrite Hc in Hstep. simpl in Hstep. rewrite Hpos in Hstep.
  destruct (at_index atr i) as [v|]; simpl in Hstep; [|discriminate].
  destruct (checkExitSignal i position candle v) eqn:Hexit.
  2:{ injection Hstep as <-. congruence. }
  injection Hstep as <-. split; [done|].
  exists (withPnL position (closePosition position candle)).
  split; [done|]. split; [done|].
  unfold checkExitSignal in Hexit. simpl. unfold exitPriceOf.
  destruct (String.eqb (PSide position) "LONG").
  - destruct (fle (Low candle) (StopLoss position)) eqn:Hsl.
    + apply fle_true in Hsl. split; [done|]. intros Hgt.
      by apply Qlt_not_le in Hgt.
    + apply fle_false in Hsl. simpl in Hexit. rewrite Hexit.
      apply fge_true in Hexit. split; [|done]. intros Hle.
      by apply Qlt_not_le in Hsl.
  - destruct (fge (High candle) (StopLoss position)) eqn:Hsl.
    + apply fge_true in Hsl. split; [done|]. intros Hgt.
      by apply Qlt_not_le in Hgt.
    + apply fle_false in Hsl. simpl in Hexit. rewrite Hexit.
      apply fle_true in Hexit. split; [|done]. intros Hle.
      by apply Qlt_not_le in Hsl.
Qed.

End LoopFacts.

(** The theorem applied to five bars with upward crossings at 2 and 4: the
    loop is flat after bar 1 and enters LONG at bar 2. *)
Lemma long_entry_at_crossing_witness :
  longEntryAt Samples.strat (Samples.bars 5) Samples.crossTwice
    (replicate 5 0%Q) (Samples.unit 5) (Samples.unit 5) (Samples.strong 5)
    (Samples.above 5) (Samples.below 5) 2.
Proof.
  apply (long_entry_at_crossing Samples.strat (Samples.bars 5)
           Samples.crossTwice (replicate 5 0%Q) (Samples.unit 5)
           (Samples.unit 5) (Samples.strong 5) (Samples.above 5)
           (Samples.below 5) 2 initialState (Samples.bar 3) 1%Q).
  - lia.
  - reflexivity.
  - reflexivity.
  - reflexivity.
  - reflexivity.
  - exists 0%Q, 5%Q, 30%Q, 20%Q, 10%Q. repeat split; by vm_compute.
Defined.

(** C3 (as stated) fails.  With two bars the crossing conditions hold at
    index 1, which the guard [idx < 2] never examines; with five bars they
    hold at index 4 while the LONG entered at bar 2 is still open.  In
    neither run is a LONG entered at that index. *)
Lemma long_entry_at_crossing_counterexample :
  (longSignalAt Samples.strat Samples.crossAtOne (Samples.strong 2)
     (Samples.above 2) (Samples.below 2) 1 ∧
   ¬ longEntryAt Samples.strat (Samples.bars 2) Samples.crossAtOne
       (replicate 2 0%Q) (Samples.unit 2) (Samples.unit 2) (Samples.strong 2)
       (Samples.above 2) (Samples.below 2) 1) ∧
  (longSignalAt Samples.strat Samples.crossTwice (Samples.strong 5)
     (Samples.above 5) (Samples.below 5) 4 ∧
   ¬ longEntryAt Samples.strat (Samples.bars 5) Samples.crossTwice
       (replicate 5 0%Q) (Samples.unit 5) (Samples.unit 5) (Samples.strong 5)
       (Samples.above 5) (Samples.below 5) 4).
Proof.
  split; split.
  - exists 0%Q, 1%Q, 30%Q, 20%Q, 10%Q. repeat split; by vm_compute.
  - intros (st & candle & position & Hrun & _ & Hpos & _).
    vm_compute in Hrun. injection Hrun as <-. discriminate.
  - exists (-1)%Q, 2%Q, 30%Q, 20%Q, 10%Q. repeat split; by vm_compute.
  - intros (st & candle & position & Hrun & Hc & Hpos & _ & _ & Htime).
    vm_compute in Hrun. injection Hrun as <-.
    vm_compute in Hc. injection Hc as <-.
    simpl in Hpos. injection Hpos as <-. discriminate.
Qed.

(** The theorem applied to the LONG of the specification's example (entry
    100, stop 96, target 106) and a bar with low 95 and high 97. *)
Lemma exit_price_is_triggered_level_witness :
  ∃ trade,
    trades (closeInto Samples.heldState Samples.longPosition Samples.stopCandle)
    = [] ++ [trade] ∧
    ExitTime trade = 4 ∧
    ((95 <= StopLoss Samples.longPosition)%Q →
     ExitPrice trade = StopLoss Samples.longPosition) ∧
    ((StopLoss Samples.longPosition < 95)%Q →
     (TakeProfit Samples.longPosition <= 97)%Q ∧
     ExitPrice trade = TakeProfit Samples.longPosition).
Proof.
  refine (proj2 (exit_price_is_triggered_level Samples.strat Samples.stopSeries
                   [0; 0; 5; 5]%Q (replicate 4 0%Q) (replicate 4 2%Q)
                   (replicate 4 2%Q) (Samples.strong 4) (Samples.above 4)
                   (Samples.below 4) Samples.heldState 3
                   (closeInto Samples.heldState Samples.longPosition
                      Samples.stopCandle)
                   Samples.longPosition Samples.stopCandle _ _ _ _)).
  - reflexivity.
  - reflexivity.
  - vm_compute. reflexivity.
  - reflexivity.
Defined.

(** The example of the specification: the exit price is 96 and the
    recorded PnL is negative. *)
Example stop_loss_example :
  StopLoss Samples.longPosition = (100 - 2 * 2)%Q ∧
  TakeProfit Samples.longPosition = (100 + 3 * 2)%Q ∧
  ∃ trade,
    trades (closeInto Samples.heldState Samples.longPosition Samples.stopCandle)
    = [trade] ∧
    (ExitPrice trade == 96)%Q ∧ (PnL trade < 0)%Q.
Proof.
  split; [reflexivity|]. split; [reflexivity|].
  eexists. split; [reflexivity|]. split; by vm_compute.
Qed.

(** ** The trading loop: trade times *)

Lemma increasingFrom_lookup cs : ∀ prev (i : nat) c,
  increasingFrom prev cs → cs !! i = Some c → prev < Timestamp c.
Proof.
  induction cs as [|c0 rest IH]; intros prev i c Hinc Hi; [done|].
  destruct Hinc as [Hlt Hrest]. destruct i as [|i]; simpl in Hi.
  - by injection Hi as <-.
  - pose proof (IH _ _ _ Hrest Hi). lia.
Qed.

Lemma strictlyIncreasing_tail c0 rest :
  strictlyIncreasing (c0 :: rest) → strictlyIncreasing rest.
Proof. destruct rest as [|c1 r]; simpl; [done|]. by intros [_ ?]. Qed.

Lemma strictlyIncreasing_lookup cs : ∀ (j i : nat) c c',
  strictlyIncreasing cs → cs !! j = Some c → cs !! i = Some c' → (j < i)%nat →
  Timestamp c < Timestamp c'.
Proof.
  induction cs as [|c0 rest IH]; intros j i c c' Hinc Hj Hi Hlt; [done|].
  destruct i as [|i]; [lia|]. simpl in Hi.
  destruct j as [|j]; simpl in Hj.
  - injection Hj as <-. by eapply increasingFrom_lookup.
  - eapply IH; [by eapply strictlyIncreasing_tail|done..|lia].
Qed.

Section Times.

Variable strategy : Strategy.
Variable candles : list Candle.
Variables mainCF secondCF atr atrPercent adx plusDI minusDI : list Q.
Hypothesis increasing : strictlyIncreasing candles.

Local Abbreviation step :=
  (tradingStep strategy candles mainCF secondCF atr atrPercent adx plusDI minusDI).
Local Abbreviation upto :=
  (tradingLoopUpto strategy candles mainCF secondCF atr atrPercent adx plusDI
     minusDI).

Lemma at_index_increasing j i c c' :
  at_index candles j = Some c → at_index candles i = Some c' → j < i →
  Timestamp c < Timestamp c'.
Proof.
  intros [Hj0 Hj]%at_index_Some [Hi0 Hi]%at_index_Some Hlt.
  eapply strictlyIncreasing_lookup; [exact increasing|done..|lia].
Qed.

Lemma tradingStep_timed st i st' :
  timed candles (i - 1) st → step st i = Some st' → timed candles i st'.
Proof.
  intros [Hclosed Hopen] Hstep. unfold tradingStep in Hstep.
  destruct (at_index candles i) as [candle|] eqn:Hc; simpl in Hstep;
    [|discriminate].
  destruct (currentPosition st) as [position|] eqn:Hpos.
  - destruct (Hopen _ eq_refl) as (j & cj & Hj & Hcj & Hentry).
    destruct (at_index atr i) as [v|]; simpl in Hstep; [|discriminate].
    destruct (checkExitSignal i position candle v); injection Hstep as <-.
    + split; [|done]. simpl. apply Forall_app. split; [done|].
      constructor; [|constructor]. simpl. rewrite Hentry.
      eapply at_index_increasing; [done..|lia].
    + split; [done|]. intros p Hp. rewrite Hpos in Hp. injection Hp as <-.
      exists j, cj. split; [lia|done].
  - destruct (checkEntrySignal _ _ _ _ _ _ _ _) as [signal|];
      simpl in Hstep; [|discriminate].
    destruct (String.eqb signal "").
    + injection Hstep as <-. split; [done|]. intros p Hp. congruence.
    + destruct (at_index atr i) as [v|]; simpl in Hstep; [|discriminate].
      injection Hstep as <-. split; [done|]. simpl.
      intros p [= <-]. exists i, candle. split; [lia|]. split; [done|].
      apply openPosition_entry.
Qed.

Lemma tradingLoopUpto_timed (k : nat) st :
  upto (Z.of_nat k) = Some st → timed candles (Z.of_nat k) st.
Proof.
  revert st. induction k as [|k IH]; intros st Hrun.
  - injection Hrun as <-. split; [constructor|]. intros p Hp. discriminate.
  - rewrite tradingLoopUpto_succ in Hrun by lia.
    replace (Z.of_nat (S k) - 1) with (Z.of_nat k) in Hrun by lia.
    destruct (upto (Z.of_nat k)) as [st0|]; simpl in Hrun; [|discriminate].
    eapply tradingStep_timed; [|exact Hrun].
    replace (Z.of_nat (S k) - 1) with (Z.of_nat k) by lia. by apply IH.
Qed.

(** What does hold of the trade times: a trade closed inside the loop
    ends strictly after it starts, and so does the forced closure unless
    its position was entered at the final candle. *)
Lemma trade_times_ordered st :
  simulate strategy candles mainCF secondCF atr atrPercent adx plusDI minusDI
    = Some st →
  Forall (λ trade,
            EntryTime trade < ExitTime trade ∨
            ∃ lastCandle,
              at_index candles (len candles - 1) = Some lastCandle ∧
              EntryTime trade = Timestamp lastCandle ∧
              ExitTime trade = Timestamp lastCandle) (trades st).
Proof.
  unfold simulate, tradingLoop.
  destruct (upto (len candles - 1)) as [st0|] eqn:Hloop; simpl; [|discriminate].
  assert (timed candles (len candles - 1) st0) as [Hclosed Hopen].
  { destruct (Z_le_gt_dec (len candles) 0) as [Hz|Hnz].
    - unfold tradingLoopUpto in Hloop. rewrite seqZ_nil in Hloop by lia.
      injection Hloop as <-. split; [constructor|]. intros p Hp. discriminate.
    - replace (len candles - 1) with (Z.of_nat (Z.to_nat (len candles - 1)))
        in Hloop |- * by lia.
      by apply tradingLoopUpto_timed. }
  assert (Forall (λ trade,
            EntryTime trade < ExitTime trade ∨
            ∃ lastCandle,
              at_index candles (len candles - 1) = Some lastCandle ∧
              EntryTime trade = Timestamp lastCandle ∧
              ExitTime trade = Timestamp lastCandle) (trades st0)) as Hweak.
  { eapply Forall_impl; [exact Hclosed|]. intros trade ?. by left. }
  unfold closeAtEnd.
  destruct (currentPosition st0) as [position|] eqn:Hpos.
  - destruct (at_index candles (len candles - 1)) as [lastCandle|] eqn:Hlast;
      simpl; [|discriminate].
    intros [= <-]. simpl. apply Forall_app. split; [done|].
    constructor; [|constructor]. simpl.
    destruct (Hopen _ eq_refl) as (j & cj & Hj & Hcj & Hentry).
    destruct (Z.eq_dec j (len candles - 1)) as [->|Hne].
    + right. exists lastCandle. split; [done|]. split; [|done]. congruence.
    + left. rewrite Hentry.
      eapply at_index_increasing; [done..|lia].
  - by intros [= <-].
Qed.

End Times.

(** C4 fails on the code.  Three bars with timestamps 1 < 2 < 3 and an
    entry signal at the final bar: the LONG is entered at bar 2 (time 3)
    and force-closed against the same candle, so the only trade of the run
    has [ExitTime = EntryTime = 3]. *)
Theorem forced_closure_at_entry_candle :
  strictlyIncreasing (Samples.bars 3) ∧
  ∃ st trade,
    simulate Samples.strat (Samples.bars 3) Samples.crossAtEnd
      (replicate 3 0%Q) (Samples.unit 3) (Samples.unit 3) (Samples.strong 3)
      (Samples.above 3) (Samples.below 3) = Some st ∧
    trades st = [trade] ∧
    EntryTime trade = 3 ∧ ExitTime trade = 3 ∧
    ¬ (EntryTime trade < ExitTime trade).
Proof.
  split; [vm_compute; done|].
  do 2 eexists. split; [vm_compute; reflexivity|]. simpl.
  split; [reflexivity|]. split; [reflexivity|]. split; [reflexivity|].
  simpl. lia.
Qed.

(** ** The trading loop: cash balance and recorded PnL in float64 arithmetic *)

Lemma round64_Accurate : Accurate round64.
Proof. split; intros x; apply round64_error. Qed.

Lemma replay_snoc rnd balance ledger trade :
  replay rnd balance (ledger ++ [trade])
  = replayStep rnd (replay rnd balance ledger) trade.
Proof. unfold replay. by rewrite fold_left_app. Qed.

Lemma openPosition_fields rnd signal candle v balance :
  PSide (F64.openPosition rnd signal candle v balance) = signal ∧
  PEntryPrice (F64.openPosition rnd signal candle v balance) = Close candle.
Proof. unfold F64.openPosition. by destruct (String.eqb signal "LONG"). Qed.

Lemma closeInto_settled rnd st position candle :
  currentPosition st = Some position → settled rnd st →
  settled rnd (F64.closeInto rnd st position candle).
Proof.
  intros Hpos [Hpnl Hbal]. rewrite Hpos in Hbal.
  unfold settled, F64.closeInto. simpl. split.
  - apply Forall_app. split; [done|]. constructor; [|constructor].
    unfold signedMove, isShort. simpl.
    by destruct (String.eqb (PSide position) "SHORT").
  - rewrite replay_snoc. unfold replayStep, openedBalance. simpl.
    by rewrite Hbal.
Qed.

Section Settlement.
Variable rnd : Q → Q.
Variable strategy : Strategy.
Variable candles : list Candle.
Variables mainCF secondCF atr atrPercent adx plusDI minusDI : list Q.

Local Abbreviation step :=
  (F64.tradingStep rnd strategy candles mainCF secondCF atr atrPercent adx
     plusDI minusDI).

Lemma tradingStep_settled st i st' :
  settled rnd st → step st i = Some st' → settled rnd st'.
Proof.
  intros Hinv Hstep. unfold F64.tradingStep in Hstep.
  destruct (at_index candles i) as [candle|]; simpl in Hstep; [|discriminate].
  destruct (currentPosition st) as [position|] eqn:Hpos.
  - destruct (at_index atr i) as [v|]; simpl in Hstep; [|discriminate].
    destruct (checkExitSignal i position candle v);
      injection Hstep as <-; [|done].
    by apply closeInto_settled.
  - destruct (checkEntrySignal _ _ _ _ _ _ _ _) as [signal|];
      simpl in Hstep; [|discriminate].
    destruct (String.eqb signal ""); [by injection Hstep as <-|].
    destruct (at_index atr i) as [v|]; simpl in Hstep; [|discriminate].
    injection Hstep as <-.
    destruct Hinv as [Hpnl Hbal]. rewrite Hpos in Hbal.
    unfold settled. simpl. split; [done|].
    destruct (openPosition_fields rnd signal candle v (currentBalance st))
      as [_ ->].
    by rewrite Hbal.
Qed.

Lemma initialState_settled : settled rnd initialState.
Proof. split; [constructor|reflexivity]. Qed.

Lemma simulate_settled st :
  F64.simulate rnd strategy candles mainCF secondCF atr atrPercent adx plusDI
    minusDI = Some st →
  settled rnd st ∧ currentPosition st = None.
Proof.
  unfold F64.simulate, F64.tradingLoop.
  destruct (forM step initialState (seqZ 1 (len candles - 1))) as [st0|] eqn:Hloop;
    simpl; [|discriminate].
  assert (settled rnd st0) as Hinv.
  { revert Hloop. apply forM_invariant; [|apply initialState_settled].
    intros s i s' _. apply tradingStep_settled. }
  unfold F64.closeAtEnd.
  destruct (currentPosition st0) as [position|] eqn:Hpos.
  - destruct (at_index candles (len candles - 1)) as [lastCandle|];
      simpl; [|discriminate].
    intros [= <-]. split; [by apply closeInto_settled|done].
  - by intros [= <-].
Qed.

End Settlement.

(** The arithmetic of one round trip. *)
Lemma replayStep_error rnd balance trade :
  Accurate rnd →
  (Qabs (replayStep rnd balance trade - balance - rawMove trade)
   <= unitRoundoff
      * (Qabs (Size trade * EntryPrice trade)
         + Qabs (ExitPrice trade * Size trade)
         + Qabs (openedBalance rnd balance trade)
         + Qabs (replayStep rnd balance trade)))%Q.
Proof.
  intros Hrnd. unfold replayStep, openedBalance, rawMove, F64.fadd, F64.fsub,
    F64.fmul.
  set (s := Size trade). set (p := EntryPrice trade). set (x := ExitPrice trade).
  set (c1 := rnd (s * p)%Q). set (b1 := rnd (balance - c1)%Q).
  set (c2 := rnd (x * s)%Q). set (b2 := rnd (b1 + c2)%Q).
  pose proof (rnd_error rnd Hrnd (s * p)%Q) as H1. fold c1 in H1.
  pose proof (rnd_error_inv rnd Hrnd (balance - c1)%Q) as H2. fold b1 in H2.
  pose proof (rnd_error rnd Hrnd (x * s)%Q) as H3. fold c2 in H3.
  pose proof (rnd_error_inv rnd Hrnd (b1 + c2)%Q) as H4. fold b2 in H4.
  set (a1 := Qabs (s * p)%Q) in *. set (a2 := Qabs b1) in *.
  set (a3 := Qabs (x * s)%Q) in *. set (a4 := Qabs b2) in *.
  apply Qabs_Qle_condition in H1, H2, H3, H4. apply Qabs_Qle_condition.
  split; lra.
Qed.

Lemma signedMove_error rnd trade :
  Accurate rnd →
  (Qabs (signedMove rnd trade
         - (if isShort trade then - rawMove trade else rawMove trade))
   <= (2 * unitRoundoff + unitRoundoff * unitRoundoff) * Qabs (rawMove trade))%Q.
Proof.
  intros Hrnd.
  assert (Qabs (F64.fmul rnd (F64.fsub rnd (ExitPrice trade) (EntryPrice trade))
                  (Size trade) - rawMove trade)
          <= (2 * unitRoundoff + unitRoundoff * unitRoundoff)
             * Qabs (rawMove trade))%Q as Hmove.
  { unfold rawMove, F64.fmul, F64.fsub.
    set (d := (ExitPrice trade - EntryPrice trade)%Q). set (s := Size trade).
    pose proof (rnd_error rnd Hrnd d) as H1.
    pose proof (rnd_error rnd Hrnd (rnd d * s)%Q) as H2.
    set (u := unitRoundoff) in *. assert (0 < u)%Q as Hu by reflexivity.
    rewrite Qabs_Qmult in H2 |- *.
    assert (Qabs (rnd d) <= (1 + u) * Qabs d)%Q as Hd.
    { pose proof (Qabs_triangle (rnd d - d)%Q d) as Ht.
      assert (rnd d - d + d == rnd d)%Q as Heq by ring.
      rewrite Heq in Ht. lra. }
    assert (Qabs (rnd (rnd d * s) - d * s)
            <= Qabs (rnd (rnd d * s) - rnd d * s) + Qabs ((rnd d - d) * s))%Q
      as Ht.
    { pose proof (Qabs_triangle (rnd (rnd d * s) - rnd d * s)%Q
                    ((rnd d - d) * s)%Q) as Ht.
      assert (rnd (rnd d * s) - rnd d * s + (rnd d - d) * s
              == rnd (rnd d * s) - d * s)%Q as Heq by ring.
      by rewrite Heq in Ht. }
    rewrite Qabs_Qmult in Ht.
    pose proof (Qabs_nonneg s). pose proof (Qabs_nonneg d).
    pose proof (Qabs_nonneg (rnd d)). pose proof (Qabs_nonneg (rnd d - d)%Q).
    set (as_ := Qabs s) in *. set (ad := Qabs d) in *.
    set (ar := Qabs (rnd d)) in *. set (ae := Qabs (rnd d - d)%Q) in *.
    set (t1 := Qabs (rnd (rnd d * s) - rnd d * s)%Q) in *.
    set (t := Qabs (rnd (rnd d * s) - d * s)%Q) in *.
    assert (ar * as_ <= (1 + u) * (ad * as_))%Q by nra.
    assert (ae * as_ <= u * (ad * as_))%Q by nra.
    assert (u * (ar * as_) <= u * ((1 + u) * (ad * as_)))%Q by nra.
    set (m := (ad * as_)%Q) in *. set (n := (ar * as_)%Q) in *.
    set (k := (ae * as_)%Q) in *.
    nra. }
  unfold signedMove. destruct (isShort trade); [|done].
  match goal with |- (Qabs (- ?a - - ?b) <= _)%Q =>
    assert (- a - - b == - (a - b))%Q as -> by ring end.
  by rewrite Qabs_opp.
Qed.

(** C10 (as amended).  In float64 arithmetic (relative error at most
    [2^-53] per operation; no overflow or underflow), for every completed
    run over candles whose close is not zero: the final balance is the
    replay of the ledger, each trade debiting [size * entryPrice] and
    crediting [exitPrice * size] whatever its side; the recorded PnL of a
    trade is the rounded move [(exitPrice - entryPrice) * size], negated
    for a SHORT; [totalPnL] is the rounded difference between that replay
    and the initial balance.  One round trip changes the balance by the
    exact move up to a rounding error of [2^-53] times the sum of the
    entry cost, the exit proceeds, the balance while the position is open
    and the balance after the close; the recorded PnL is within a relative
    error of [2^-52 + 2^-106] of the exact move (LONG) or of its negation
    (SHORT). *)
Theorem balance_reconciliation rnd strategy candles mainCF secondCF atr atrPercent
    adx plusDI minusDI st :
  Accurate rnd →
  Forall (λ candle, ¬ (Close candle == 0)%Q) candles →
  F64.simulate rnd strategy candles mainCF secondCF atr atrPercent adx plusDI
    minusDI = Some st →
  currentBalance st = replay rnd initialBalance (trades st) ∧
  Forall (λ trade, PnL trade = signedMove rnd trade) (trades st) ∧
  (trades st ≠ [] →
   F64.TotalPnL rnd (trades st) (currentBalance st)
   = F64.fsub rnd (replay rnd initialBalance (trades st)) initialBalance) ∧
  (∀ balance trade,
     (Qabs (replayStep rnd balance trade - balance - rawMove trade)
      <= unitRoundoff
         * (Qabs (Size trade * EntryPrice trade)
            + Qabs (ExitPrice trade * Size trade)
            + Qabs (openedBalance rnd balance trade)
            + Qabs (replayStep rnd balance trade)))%Q) ∧
  (∀ trade,
     (Qabs (signedMove rnd trade
            - (if isShort trade then - rawMove trade else rawMove trade))
      <= (2 * unitRoundoff + unitRoundoff * unitRoundoff)
         * Qabs (rawMove trade))%Q).
Proof.
  intros Hrnd _ Hsim.
  destruct (simulate_settled _ _ _ _ _ _ _ _ _ _ _ Hsim) as [[Hpnl Hbal] Hflat].
  rewrite Hflat in Hbal.
  split; [done|]. split; [done|]. split.
  - intros Hne. unfold F64.TotalPnL.
    destruct (Z.eqb_spec (len (trades st)) 0) as [Hz|_]; [|by rewrite Hbal].
    destruct (trades st); [done|]. unfold len in Hz. simpl in Hz. lia.
  - split.
    + intros balance trade. by apply replayStep_error.
    + intros trade. by apply signedMove_error.
Qed.

Lemma dropSeries_close : Forall (λ candle, ¬ (Close candle == 0)%Q) Samples.dropSeries.
Proof. repeat constructor; by vm_compute. Qed.

(** The theorem applied to binary64 and four bars with a downward crossing
    at index 2: the SHORT entered at 100 leaves at its take-profit 97, the
    recorded PnL is 30 and the balance falls by 30. *)
Lemma balance_reconciliation_witness :
  ∃ st trade,
    F64.simulate round64 Samples.strat Samples.dropSeries Samples.crossDown
      (replicate 4 0%Q) (Samples.unit 4) (Samples.unit 4) (Samples.strong 4)
      (Samples.below 4) (Samples.above 4) = Some st ∧
    trades st = [trade] ∧ Side trade = "SHORT" ∧ PnL trade = 30%Q ∧
    F64.TotalPnL round64 (trades st) (currentBalance st) = (-30)%Q ∧
    currentBalance st = replay round64 initialBalance (trades st) ∧
    PnL trade = signedMove round64 trade.
Proof.
  assert (∃ st trade,
            F64.simulate round64 Samples.strat Samples.dropSeries
              Samples.crossDown (replicate 4 0%Q) (Samples.unit 4)
              (Samples.unit 4) (Samples.strong 4) (Samples.below 4)
              (Samples.above 4) = Some st ∧
            trades st = [trade] ∧ Side trade = "SHORT" ∧ PnL trade = 30%Q ∧
            F64.TotalPnL round64 (trades st) (currentBalance st) = (-30)%Q)
    as (st & trade & Hsim & Hledger & Hside & Hpnl & Htotal).
  { do 2 eexists. split; [vm_compute; reflexivity|]. simpl.
    repeat split; vm_compute; reflexivity. }
  exists st, trade. split; [exact Hsim|]. split; [exact Hledger|].
  split; [exact Hside|]. split; [exact Hpnl|]. split; [exact Htotal|].
  destruct (balance_reconciliation round64 _ _ _ _ _ _ _ _ _ _
              round64_Accurate dropSeries_close Hsim) as (Hbal & Hall & _).
  split; [exact Hbal|].
  rewrite Hledger in Hall. by apply Forall_cons in Hall as [Hone _].
Defined.

(** C10 (as stated) fails in float64, in both directions.  A LONG entered
    at 104 with ATR 2 leaves at its take-profit 110: the recorded PnL is
    57.69230769230769 and [totalPnL] is 57.69230769230853, although no
    SHORT trade occurred.  A SHORT entered at 100 and force-closed at a
    last close of 100 has PnL zero, and [totalPnL] equals the sum of the
    recorded PnL although a SHORT trade occurred. *)
Lemma balance_reconciliation_counterexample :
  (∃ st trade,
     F64.simulate round64 Samples.strat Samples.rallySeries Samples.crossUp
       (replicate 4 0%Q) (replicate 4 2%Q) (replicate 4 2%Q) (Samples.strong 4)
       (Samples.above 4) (Samples.below 4) = Some st ∧
     trades st = [trade] ∧ Side trade = "LONG" ∧
     PnL trade = (4059735241019077 # 70368744177664)%Q ∧
     F64.TotalPnL round64 (trades st) (currentBalance st)
     = (15858340785231 # 274877906944)%Q ∧
     ¬ (F64.TotalPnL round64 (trades st) (currentBalance st)
        == sumOver PnL (trades st))%Q) ∧
  (∃ st trade,
     F64.simulate round64 Samples.strat (Samples.bars 4) Samples.crossDown
       (replicate 4 0%Q) (Samples.unit 4) (Samples.unit 4) (Samples.strong 4)
       (Samples.below 4) (Samples.above 4) = Some st ∧
     trades st = [trade] ∧ Side trade = "SHORT" ∧
     (F64.TotalPnL round64 (trades st) (currentBalance st)
      == sumOver PnL (trades st))%Q).
Proof.
  split.
  - do 2 eexists. split; [vm_compute; reflexivity|]. simpl.
    repeat split; try (vm_compute; reflexivity).
    intros Heq. by vm_compute in Heq.
  - do 2 eexists. split; [vm_compute; reflexivity|]. simpl.
    repeat split; vm_compute; reflexivity.
Qed.

(** * Further properties *)

(** ** Window extremes and window selection *)

Lemma fold_max_spec rest : ∀ init,
  let r := fold_left (fun maxHigh candle =>
                        if fgt (High candle) maxHigh then High candle else maxHigh)
                     rest init in
  (r = init ∨ ∃ c, c ∈ rest ∧ r = High c) ∧ (init <= r)%Q ∧
  Forall (λ c, (High c <= r)%Q) rest.
Proof.
  induction rest as [|c rest IH]; intros init; simpl.
  - split; [by left|]. split; [lra|constructor].
  - destruct (fgt (High c) init) eqn:Hc.
    + apply fgt_true in Hc. destruct (IH (High c)) as (Hsel & Hle & Hall).
      split; [|split].
      * right. destruct Hsel as [->|(c' & Hin & ->)].
        -- exists c. split; [left|done].
        -- exists c'. split; [by right|done].
      * lra.
      * constructor; done.
    + apply fgt_false in Hc. destruct (IH init) as (Hsel & Hle & Hall).
      split; [|split].
      * destruct Hsel as [->|(c' & Hin & ->)]; [by left|].
        right. exists c'. split; [by right|done].
      * done.
      * constructor; [lra|done].
Qed.

Lemma fold_min_spec rest : ∀ init,
  let r := fold_left (fun minLow candle =>
                        if flt (Low candle) minLow then Low candle else minLow)
                     rest init in
  (r = init ∨ ∃ c, c ∈ rest ∧ r = Low c) ∧ (r <= init)%Q ∧
  Forall (λ c, (r <= Low c)%Q) rest.
Proof.
  induction rest as [|c rest IH]; intros init; simpl.
  - split; [by left|]. split; [lra|constructor].
  - destruct (flt (Low c) init) eqn:Hc.
    + apply flt_true in Hc. destruct (IH (Low c)) as (Hsel & Hle & Hall).
      split; [|split].
      * right. destruct Hsel as [->|(c' & Hin & ->)].
        -- exists c. split; [left|done].
        -- exists c'. split; [by right|done].
      * lra.
      * constructor; done.
    + assert (init <= Low c)%Q as Hge.
      { unfold flt in Hc. apply negb_false_iff in Hc. by apply fle_true in Hc. }
      destruct (IH init) as (Hsel & Hle & Hall).
      split; [|split].
      * destruct Hsel as [->|(c' & Hin & ->)]; [by left|].
        right. exists c'. split; [by right|done].
      * done.
      * constructor; [lra|done].
Qed.

Lemma findMaxHigh_spec c0 rest :
  (∃ c, c ∈ c0 :: rest ∧ findMaxHigh (c0 :: rest) = High c) ∧
  Forall (λ c, (High c <= findMaxHigh (c0 :: rest))%Q) (c0 :: rest).
Proof.
  unfold findMaxHigh. destruct (fold_max_spec rest (High c0)) as (Hsel & Hle & Hall).
  split.
  - destruct Hsel as [->|(c & Hin & ->)].
    + exists c0. split; [left|done].
    + exists c. split; [by right|done].
  - constructor; done.
Qed.

Lemma findMinLow_spec c0 rest :
  (∃ c, c ∈ c0 :: rest ∧ findMinLow (c0 :: rest) = Low c) ∧
  Forall (λ c, (findMinLow (c0 :: rest) <= Low c)%Q) (c0 :: rest).
Proof.
  unfold findMinLow. destruct (fold_min_spec rest (Low c0)) as (Hsel & Hle & Hall).
  split.
  - destruct Hsel as [->|(c & Hin & ->)].
    + exists c0. split; [left|done].
    + exists c. split; [by right|done].
  - constructor; done.
Qed.

(** X1.  [findMaxHigh] of a non-empty window is the high of one of its candles
    and no candle of the window has a higher high; [findMinLow] is the low
    of one of its candles and no candle has a lower low; both are 0 on the
    empty window. *)
Theorem window_extremes c0 rest :
  let window := c0 :: rest in
  ((∃ c, c ∈ window ∧ findMaxHigh window = High c) ∧
   Forall (λ c, (High c <= findMaxHigh window)%Q) window) ∧
  ((∃ c, c ∈ window ∧ findMinLow window = Low c) ∧
   Forall (λ c, (findMinLow window <= Low c)%Q) window) ∧
  findMaxHigh [] = 0%Q ∧ findMinLow [] = 0%Q.
Proof.
  simpl. split; [apply findMaxHigh_spec|]. split; [apply findMinLow_spec|]. done.
Qed.

(** X3.  [CalculateSecondCF] returns 0 when the window of
    [secondTotalKlines] candles from the entry index reaches the end of the
    series ([entryIdx + secondTotalKlines >= len candles], also when the
    window would fit exactly), and otherwise [calculateCF], with previous
    value 0, of exactly that window. *)
Theorem CalculateSecondCF_window ii cfg candles entryIdx mainCFEntry prev :
  let stk := calculateSecondTotalKlines ii cfg mainCFEntry prev in
  0 <= entryIdx → 0 <= stk → entryIdx + stk <= int_max →
  (len candles <= entryIdx + stk →
   CalculateSecondCF ii cfg candles entryIdx mainCFEntry prev = Some (0%Q, stk)) ∧
  (entryIdx + stk < len candles →
   CalculateSecondCF ii cfg candles entryIdx mainCFEntry prev
   = Some (calculateCF (take (Z.to_nat stk) (drop (Z.to_nat entryIdx) candles)) 0,
           stk)).
Proof.
  intros stk Hidx Hstk Hmax. unfold CalculateSecondCF. fold stk.
  unfold add. rewrite wrap_id by (unfold in_int, int_min, int_max in *; lia).
  split; intros Hfit.
  - destruct (Z.geb_spec (entryIdx + stk) (len candles)); [done|lia].
  - destruct (Z.geb_spec (entryIdx + stk) (len candles)); [lia|].
    rewrite slice_is_Some by lia. simpl.
    by replace (entryIdx + stk - entryIdx) with stk by lia.
Qed.
Lemma window_slice (candles : list Candle) t k :
  0 <= k <= t + 1 → t < len candles → len candles <= int_max →
  slice candles (add (sub t k) 1) (add t 1)
  = Some (take (Z.to_nat k) (drop (Z.to_nat (t - k + 1)) candles)).
Proof.
  intros Hk Ht Hlen. unfold int_max in Hlen.
  rewrite sub_id by (unfold in_int, int_min, int_max; lia).
  rewrite !add_id by (unfold in_int, int_min, int_max; lia).
  rewrite slice_is_Some by lia. do 3 f_equal. lia.
Qed.

(** X2.  When the base window fits ([0 <= TotalKlines <= t < len candles])
    and the adaptive bounds satisfy [0 <= min <= max <= t + 1],
    [CalculateMainCF] does not panic: it returns [calculateCF] of the [n]
    candles that end at index [t], where the returned size [n] is the base
    size or lies within the adaptive bounds. *)
Theorem CalculateMainCF_window ii cfg candles t prevCF :
  0 <= TotalKlines cfg <= t → t < len candles → len candles <= int_max →
  0 <= NewTotalKlinesMin cfg →
  NewTotalKlinesMin cfg <= NewTotalKlinesMax cfg →
  NewTotalKlinesMax cfg <= t + 1 →
  ∃ n,
    CalculateMainCF ii cfg candles t prevCF
    = Some (calculateCF (take (Z.to_nat n) (drop (Z.to_nat (t - n + 1)) candles))
              prevCF, n) ∧
    0 <= n <= t + 1 ∧
    len (take (Z.to_nat n) (drop (Z.to_nat (t - n + 1)) candles)) = n ∧
    (n = TotalKlines cfg ∨
     NewTotalKlinesMin cfg <= n <= NewTotalKlinesMax cfg).
Proof.
  intros Htk Ht Hlen Hmin Hmm Hmax.
  assert (∀ n, 0 <= n <= t + 1 →
               len (take (Z.to_nat n) (drop (Z.to_nat (t - n + 1)) candles)) = n)
    as Hsize.
  { intros n Hn. unfold len in *. rewrite length_take, length_drop. lia. }
  unfold CalculateMainCF.
  destruct (Z.ltb_spec t (TotalKlines cfg)); [lia|].
  unfold calculateNewTotalKlines.
  rewrite (window_slice candles t (TotalKlines cfg)) by lia. simpl.
  destruct (feq _ 0); simpl.
  - exists (TotalKlines cfg).
    rewrite (window_slice candles t (TotalKlines cfg)) by lia. simpl.
    split; [done|]. split; [lia|]. split; [apply Hsize; lia|by left].
  - match goal with |- context [clamp ?v ?lo ?hi] =>
      pose proof (clamp_bounds v lo hi Hmm) as Hc; set (n := clamp v lo hi) in *
    end.
    exists n. rewrite (window_slice candles t n) by lia. simpl.
    split; [done|]. split; [lia|]. split; [apply Hsize; lia|right; lia].
Qed.

Lemma forM_total {S : Type} (body : S → Z → option S) idxs :
  (∀ s i, i ∈ idxs → is_Some (body s i)) →
  ∀ s, is_Some (forM body s idxs).
Proof.
  induction idxs as [|i rest IH]; intros Hbody s; simpl; [by eexists|].
  destruct (Hbody s i) as [s' ->]; [left|]. simpl.
  apply IH. intros s0 j Hj. apply Hbody. by right.
Qed.

Lemma cfIndicatorsStep_shape ii strategy prev candles acc i acc' :
  0 <= i →
  warmedUp strategy candles acc →
  cfIndicatorsStep ii strategy prev candles acc i = Some acc' →
  warmedUp strategy candles acc'.
Proof.
  intros Hi (Hl1 & Hl2 & Hzero). unfold cfIndicatorsStep.
  destruct (Z.eqb_spec i 0) as [->|Hne]; [intros [= <-]; done|].
  destruct (slice candles 0 (add i 1)) as [upto|] eqn:Hup; simpl; [|discriminate].
  destruct (CalculateMainCF _ _ upto i 0) as [main|] eqn:Hmain; simpl;
    [|discriminate].
  destruct (CalculateSecondCF _ _ upto i 0 prev) as [second|]; simpl;
    [|discriminate].
  intros [= <-]. unfold warmedUp. simpl. rewrite !length_insert.
  split; [done|]. split; [done|].
  intros j Hj Hlt.
  destruct (decide (Z.to_nat i = j)) as [<-|Hdiff].
  - rewrite list_lookup_insert_eq by lia.
    unfold CalculateMainCF in Hmain.
    destruct (Z.ltb_spec i (TotalKlines (Config strategy))); [|lia].
    by injection Hmain as <-.
  - rewrite list_lookup_insert_ne by done. by apply Hzero.
Qed.

Lemma calculateCFIndicators_warmedUp ii strategy prev candles acc :
  calculateCFIndicators ii strategy prev candles = Some acc →
  warmedUp strategy candles acc.
Proof.
  unfold calculateCFIndicators.
  apply (forM_invariant _ (warmedUp strategy candles)).
  - intros a i a' Hin Ha Hstep. apply elem_of_seqZ in Hin.
    eapply cfIndicatorsStep_shape; [|exact Ha|exact Hstep]. lia.
  - unfold warmedUp. simpl. rewrite !length_replicate.
    split; [done|]. split; [done|].
    intros j _ Hj. by apply lookup_replicate_2.
Qed.

(** X4.  Whenever the indicator pass returns, MainCF and SecondCF have one
    value per candle and MainCF is 0 at every index below [TotalKlines]. *)
Theorem calculateCFIndicators_shape ii strategy prev candles mainCF secondCF :
  calculateCFIndicators ii strategy prev candles = Some (mainCF, secondCF) →
  length mainCF = length candles ∧ length secondCF = length candles ∧
  ∀ j : nat, Z.of_nat j < TotalKlines (Config strategy) →
             (j < length candles)%nat → mainCF !! j = Some 0%Q.
Proof. intros Hrun. exact (calculateCFIndicators_warmedUp _ _ _ _ _ Hrun). Qed.

Lemma calculateCFIndicators_is_Some ii strategy prev candles :
  0 <= TotalKlines (Config strategy) →
  0 <= NewTotalKlinesMin (Config strategy) →
  NewTotalKlinesMin (Config strategy) <= NewTotalKlinesMax (Config strategy) →
  NewTotalKlinesMax (Config strategy) <= TotalKlines (Config strategy) + 1 →
  0 <= SecondTotalKlinesMin (Config strategy) →
  len candles + SecondTotalKlinesMin (Config strategy) <= int_max →
  is_Some (calculateCFIndicators ii strategy prev candles).
Proof.
  intros Htk Hmin Hmm Hmax Hsec Hlen. unfold calculateCFIndicators.
  apply forM_total. intros acc i Hin. apply elem_of_seqZ in Hin.
  unfold cfIndicatorsStep.
  destruct (Z.eqb_spec i 0); [by eexists|].
  assert (add i 1 = i + 1) as ->
    by (apply add_id; unfold in_int, int_min, int_max in *; lia).
  rewrite slice_is_Some by lia. simpl.
  set (upto := take (Z.to_nat (i + 1 - 0)) (drop (Z.to_nat 0) candles)).
  assert (len upto = i + 1) as Hupto.
  { unfold upto, len in *. rewrite length_take, length_drop. lia. }
  assert (is_Some (CalculateMainCF ii (Config strategy) upto i 0)) as [main ->].
  { destruct (Z_lt_le_dec i (TotalKlines (Config strategy))) as [Hlt|Hge].
    - unfold CalculateMainCF.
      destruct (Z.ltb_spec i (TotalKlines (Config strategy))); [|lia].
      by eexists.
    - destruct (CalculateMainCF_returns ii (Config strategy) upto i 0)
        as (cf & size & ->); [lia|lia|unfold int_max in *; lia|lia|lia|lia|].
      by eexists. }
  simpl.
  rewrite (CalculateSecondCF_total ii (Config strategy) upto i prev) by lia.
  simpl. by eexists.
Qed.

(** X5.  The indicator pass does not panic when the adaptive bounds satisfy
    [0 <= min <= max <= TotalKlines + 1] and the minimal second window is
    not negative: it returns one MainCF and one SecondCF value per candle. *)
Theorem calculateCFIndicators_completes ii strategy prev candles :
  0 <= TotalKlines (Config strategy) →
  0 <= NewTotalKlinesMin (Config strategy) →
  NewTotalKlinesMin (Config strategy) <= NewTotalKlinesMax (Config strategy) →
  NewTotalKlinesMax (Config strategy) <= TotalKlines (Config strategy) + 1 →
  0 <= SecondTotalKlinesMin (Config strategy) →
  len candles + SecondTotalKlinesMin (Config strategy) <= int_max →
  ∃ mainCF secondCF,
    calculateCFIndicators ii strategy prev candles = Some (mainCF, secondCF) ∧
    length mainCF = length candles ∧ length secondCF = length candles.
Proof.
  intros Htk Hmin Hmm Hmax Hsec Hlen.
  destruct (calculateCFIndicators_is_Some ii strategy prev candles
              Htk Hmin Hmm Hmax Hsec Hlen) as [[mainCF secondCF] Hrun].
  exists mainCF, secondCF. split; [done|].
  destruct (calculateCFIndicators_warmedUp _ _ _ _ _ Hrun) as (? & ? & _). done.
Qed.

Lemma CalculateSecondCF_window_witness :
  CalculateSecondCF Samples.amd64_indefinite Samples.wideConfig
    Samples.risingSeries 2 (1 # 2) 2
  = Some (calculateCF (take 4 (drop 2 Samples.risingSeries)) 0, 4).
Proof.
  apply (CalculateSecondCF_window Samples.amd64_indefinite Samples.wideConfig
           Samples.risingSeries 2 (1 # 2) 2); by vm_compute.
Defined.

Lemma CalculateMainCF_window_witness :
  ∃ n,
    CalculateMainCF Samples.amd64_indefinite Samples.narrowConfig
      Samples.flatSeries 4 0
    = Some (calculateCF
              (take (Z.to_nat n) (drop (Z.to_nat (4 - n + 1)) Samples.flatSeries))
              0, n) ∧
    0 <= n <= 4 + 1 ∧
    len (take (Z.to_nat n) (drop (Z.to_nat (4 - n + 1)) Samples.flatSeries)) = n ∧
    (n = TotalKlines Samples.narrowConfig ∨
     NewTotalKlinesMin Samples.narrowConfig <= n
     <= NewTotalKlinesMax Samples.narrowConfig).
Proof.
  apply (CalculateMainCF_window Samples.amd64_indefinite Samples.narrowConfig
           Samples.flatSeries 4 0); by vm_compute.
Defined.

Lemma calculateCFIndicators_shape_witness :
  ∃ mainCF secondCF,
    calculateCFIndicators Samples.amd64_indefinite Samples.strat 7
      Samples.flatSeries = Some (mainCF, secondCF) ∧
    length mainCF = 5%nat ∧ length secondCF = 5%nat ∧
    mainCF !! 3%nat = Some 0%Q.
Proof.
  assert (∃ mainCF secondCF,
            calculateCFIndicators Samples.amd64_indefinite Samples.strat 7
              Samples.flatSeries = Some (mainCF, secondCF))
    as (mainCF & secondCF & Hrun) by (do 2 eexists; vm_compute; reflexivity).
  exists mainCF, secondCF. split; [exact Hrun|].
  destruct (calculateCFIndicators_shape _ _ _ _ _ _ Hrun) as (Hm & Hs & Hzero).
  split; [exact Hm|]. split; [exact Hs|]. clear Hrun Hm Hs.
  apply Hzero; [vm_compute; reflexivity|simpl; lia].
Defined.

Lemma calculateCFIndicators_completes_witness :
  ∃ mainCF secondCF,
    calculateCFIndicators Samples.amd64_indefinite Samples.strat 7
      Samples.flatSeries = Some (mainCF, secondCF) ∧
    length mainCF = length Samples.flatSeries ∧
    length secondCF = length Samples.flatSeries.
Proof.
  apply (calculateCFIndicators_completes Samples.amd64_indefinite Samples.strat 7
           Samples.flatSeries); by vm_compute.
Defined.

(** ** Indicator series: lengths and prefixes *)


Lemma length_dmSeries step candles : length (dmSeries step candles) = length candles.
Proof. destruct candles; simpl; [done|]. by rewrite length_adjacent. Qed.

Lemma adjacent_take f k : ∀ cs prev,
  adjacent f prev (take k cs) = take k (adjacent f prev cs).
Proof.
  induction k as [|k IH]; intros [|c rest] prev; simpl; try done.
  by rewrite IH.
Qed.

Lemma trSeries_take k candles :
  trSeries (take k candles) = take k (trSeries candles).
Proof.
  destruct k as [|k]; destruct candles as [|c0 rest]; simpl; try done.
  by rewrite adjacent_take.
Qed.

Lemma dmSeries_take step k candles :
  dmSeries step (take k candles) = take k (dmSeries step candles).
Proof.
  destruct k as [|k]; destruct candles as [|c0 rest]; simpl; try done.
  by rewrite adjacent_take.
Qed.

Lemma emaFrom_take alpha k : ∀ xs p,
  emaFrom alpha p (take k xs) = take k (emaFrom alpha p xs).
Proof.
  induction k as [|k IH]; intros [|x rest] p; simpl; try done.
  by rewrite IH.
Qed.

Lemma ema_take alpha k xs : ema alpha (take k xs) = take k (ema alpha xs).
Proof.
  destruct k as [|k]; destruct xs as [|x0 rest]; simpl; try done.
  by rewrite emaFrom_take.
Qed.

Lemma zip_with_take_both {A B C} (f : A → B → C) k : ∀ xs ys,
  zip_with f (take k xs) (take k ys) = take k (zip_with f xs ys).
Proof.
  induction k as [|k IH]; intros [|x xs] [|y ys]; simpl; try done.
  by rewrite IH.
Qed.

Lemma len_take_ge_2 (candles : list Candle) (k : nat) :
  (2 <= k)%nat → (len (take k candles) <? 2) = (len candles <? 2).
Proof.
  intros Hk. unfold len. rewrite length_take.
  destruct (Nat.min_spec k (length candles)) as [[? ->]|[? ->]];
    destruct (Z.ltb_spec (Z.of_nat (length candles)) 2);
    destruct (Z.ltb_spec (Z.of_nat k) 2); lia.
Qed.

Section RoundedSeries.
Variable rnd : Q → Q.

Lemma length_emaFrom64 alpha xs : ∀ p,
  length (F64.emaFrom rnd alpha p xs) = length xs.
Proof. induction xs as [|x rest IH]; intros p; simpl; [done|]. by rewrite IH. Qed.

Lemma length_ema64 alpha xs : length (F64.ema rnd alpha xs) = length xs.
Proof. destruct xs; simpl; [done|]. by rewrite length_emaFrom64. Qed.

Lemma length_trSeries64 candles :
  length (F64.trSeries rnd candles) = length candles.
Proof. destruct candles; simpl; [done|]. by rewrite length_adjacent. Qed.

Lemma trSeries64_take k candles :
  F64.trSeries rnd (take k candles) = take k (F64.trSeries rnd candles).
Proof.
  destruct k as [|k]; destruct candles as [|c0 rest]; simpl; try done.
  by rewrite adjacent_take.
Qed.

Lemma emaFrom64_take alpha k : ∀ xs p,
  F64.emaFrom rnd alpha p (take k xs) = take k (F64.emaFrom rnd alpha p xs).
Proof.
  induction k as [|k IH]; intros [|x rest] p; simpl; try done.
  by rewrite IH.
Qed.

Lemma ema64_take alpha k xs :
  F64.ema rnd alpha (take k xs) = take k (F64.ema rnd alpha xs).
Proof.
  destruct k as [|k]; destruct xs as [|x0 rest]; simpl; try done.
  by rewrite emaFrom64_take.
Qed.

Lemma length_ADX_Calculate period candles :
  length (F64.ADX_Calculate rnd period candles).1.1 = length candles ∧
  length (F64.ADX_Calculate rnd period candles).1.2 = length candles ∧
  length (F64.ADX_Calculate rnd period candles).2 = length candles.
Proof.
  unfold F64.ADX_Calculate. destruct (len candles <? 2); simpl.
  - rewrite !length_replicate. done.
  - rewrite !length_ema64, !length_zip_with, !length_ema64, !length_dmSeries,
      !length_trSeries64. lia.
Qed.

End RoundedSeries.

(** X6.  The ATR series and the ADX, +DI and -DI series have one value per
    candle, whatever the periods and the series. *)
Theorem indicator_series_aligned rnd atrPeriod adxPeriod candles :
  length (ATR_Calculate atrPeriod candles) = length candles ∧
  length (F64.ADX_Calculate rnd adxPeriod candles).1.1 = length candles ∧
  length (F64.ADX_Calculate rnd adxPeriod candles).1.2 = length candles ∧
  length (F64.ADX_Calculate rnd adxPeriod candles).2 = length candles.
Proof.
  split; [apply length_ATR_Calculate|]. apply length_ADX_Calculate.
Qed.

(** X7.  ATR does not look ahead: the ATR of the first [k >= 2] candles is
    the first [k] values of the ATR of the whole series. *)
Theorem ATR_causal period candles (k : nat) :
  (2 <= k)%nat →
  ATR_Calculate period (take k candles) = take k (ATR_Calculate period candles).
Proof.
  intros Hk. unfold ATR_Calculate. rewrite len_take_ge_2 by done.
  destruct (Z.ltb_spec (len candles) 2) as [Hshort|_].
  - unfold len in Hshort. rewrite take_ge by lia.
    rewrite take_ge; [done|]. rewrite length_replicate. lia.
  - by rewrite trSeries_take, ema_take.
Qed.

(** X8.  ADX, +DI and -DI do not look ahead: computed on the first [k >= 2]
    candles they are the first [k] values of the series of the whole
    input. *)
Theorem ADX_causal rnd period candles (k : nat) :
  (2 <= k)%nat →
  F64.ADX_Calculate rnd period (take k candles)
  = (take k (F64.ADX_Calculate rnd period candles).1.1,
     take k (F64.ADX_Calculate rnd period candles).1.2,
     take k (F64.ADX_Calculate rnd period candles).2).
Proof.
  intros Hk. unfold F64.ADX_Calculate. rewrite len_take_ge_2 by done.
  destruct (Z.ltb_spec (len candles) 2) as [Hshort|_].
  - unfold len in Hshort. rewrite (take_ge candles) by lia. simpl.
    rewrite take_ge; [done|]. rewrite length_replicate. lia.
  - simpl. rewrite !dmSeries_take, !trSeries64_take, !ema64_take.
    rewrite !zip_with_take_both, ema64_take. done.
Qed.

(** X9.  +DM and -DM are never negative and never both non-zero at the same
    bar; each is 0 or the (rounded) move it measures. *)
Theorem directional_moves_exclusive rnd prev cur :
  (0 <= F64.plusDMstep rnd prev cur)%Q ∧ (0 <= F64.minusDMstep rnd prev cur)%Q ∧
  (F64.plusDMstep rnd prev cur = 0%Q ∨ F64.minusDMstep rnd prev cur = 0%Q) ∧
  (F64.plusDMstep rnd prev cur = 0%Q ∨
   F64.plusDMstep rnd prev cur = F64.fsub rnd (High cur) (High prev)) ∧
  (F64.minusDMstep rnd prev cur = 0%Q ∨
   F64.minusDMstep rnd prev cur = F64.fsub rnd (Low prev) (Low cur)).
Proof.
  unfold F64.plusDMstep, F64.minusDMstep.
  set (highDiff := F64.fsub rnd (High cur) (High prev)).
  set (lowDiff := F64.fsub rnd (Low prev) (Low cur)).
  destruct (fgt highDiff lowDiff) eqn:H1;
  destruct (fgt highDiff 0) eqn:H2;
  destruct (fgt lowDiff highDiff) eqn:H3;
  destruct (fgt lowDiff 0) eqn:H4; simpl;
  try apply fgt_true in H1; try apply fgt_true in H2;
  try apply fgt_true in H3; try apply fgt_true in H4;
  try apply fgt_false in H1; try apply fgt_false in H2;
  try apply fgt_false in H3; try apply fgt_false in H4;
  repeat split; try lra; auto.
Qed.

Lemma ATR_causal_witness :
  ATR_Calculate 14 (take 2 Samples.atrSeries3)
  = take 2 (ATR_Calculate 14 Samples.atrSeries3).
Proof. apply (ATR_causal 14 Samples.atrSeries3 2). lia. Defined.

Lemma ADX_causal_witness :
  F64.ADX_Calculate round64 14 (take 2 Samples.dmSeries3)
  = (take 2 (F64.ADX_Calculate round64 14 Samples.dmSeries3).1.1,
     take 2 (F64.ADX_Calculate round64 14 Samples.dmSeries3).1.2,
     take 2 (F64.ADX_Calculate round64 14 Samples.dmSeries3).2).
Proof. apply (ADX_causal round64 14 Samples.dmSeries3 2). lia. Defined.

(** ** The trading loop: signals, completion and the order of the ledger *)

Lemma at_index_is_Some {A} (a : list A) i :
  0 <= i < len a → is_Some (at_index a i).
Proof.
  intros Hi. unfold at_index, len in *. destruct (Z.ltb_spec i 0); [lia|].
  apply lookup_lt_is_Some. lia.
Qed.

Section Entries.
Variable strategy : Strategy.
Variables mainCF secondCF adx plusDI minusDI atrPercent : list Q.

Local Abbreviation signal_at :=
  (fun i => checkEntrySignal strategy i mainCF secondCF adx plusDI minusDI atrPercent).

Lemma checkEntrySignal_cases i s :
  signal_at i = Some s →
  s = "" ∨
  (s = "LONG" ∧ 2 <= i ∧ longSignalAt strategy mainCF adx plusDI minusDI i) ∨
  (s = "SHORT" ∧ 2 <= i ∧ shortSignalAt strategy mainCF adx plusDI minusDI i).
Proof.
  unfold checkEntrySignal.
  destruct (Z.ltb_spec i 2) as [|Hi]; [intros [= <-]; by left|].
  destruct (at_index mainCF i) as [m1|] eqn:Hm1; simpl; [|discriminate].
  destruct (fgt m1 0) eqn:Hup; simpl.
  - destruct (at_index mainCF (i - 1)) as [m0|] eqn:Hm0; simpl; [|discriminate].
    assert (flt m1 0 = false) as Hdown.
    { apply fgt_true in Hup. unfold flt. apply negb_false_iff. apply fle_true. lra. }
    destruct (fle m0 0) eqn:Hprev; simpl.
    + destruct (at_index adx i) as [a|] eqn:Ha; simpl; [|discriminate].
      destruct (fgt a (ADXThreshold (Config strategy))) eqn:Hadx; simpl.
      * destruct (at_index plusDI i) as [p|] eqn:Hp; simpl; [|discriminate].
        destruct (at_index minusDI i) as [m|] eqn:Hm; simpl; [|discriminate].
        destruct (fgt p m) eqn:Hdi; simpl.
        -- intros [= <-]. right. left. split; [done|]. split; [done|].
           exists m0, m1, a, p, m.
           apply fgt_true in Hup, Hadx, Hdi. apply fle_true in Hprev. done.
        -- rewrite Hdown. simpl. intros [= <-]. by left.
      * rewrite Hdown. simpl. intros [= <-]. by left.
    + rewrite Hdown. simpl. intros [= <-]. by left.
  - destruct (flt m1 0) eqn:Hdown; simpl; [|intros [= <-]; by left].
    destruct (at_index mainCF (i - 1)) as [m0|] eqn:Hm0; simpl; [|discriminate].
    destruct (fge m0 0) eqn:Hprev; simpl; [|intros [= <-]; by left].
    destruct (at_index adx i) as [a|] eqn:Ha; simpl; [|discriminate].
    destruct (fgt a (ADXThreshold (Config strategy))) eqn:Hadx; simpl;
      [|intros [= <-]; by left].
    destruct (at_index minusDI i) as [m|] eqn:Hm; simpl; [|discriminate].
    destruct (at_index plusDI i) as [p|] eqn:Hp; simpl; [|discriminate].
    destruct (fgt m p) eqn:Hdi; simpl; [|intros [= <-]; by left].
    intros [= <-]. right. right. split; [done|]. split; [done|].
    exists m0, m1, a, p, m.
    apply flt_true in Hdown. apply fgt_true in Hadx, Hdi. apply fge_true in Hprev.
    done.
Qed.

Lemma checkEntrySignal_short i :
  2 <= i → shortSignalAt strategy mainCF adx plusDI minusDI i →
  signal_at i = Some "SHORT".
Proof.
  intros Hi (m0 & m1 & a & p & m & H0 & H1 & Ha & Hp & Hm & C0 & C1 & Ca & Cp).
  unfold checkEntrySignal.
  destruct (Z.ltb_spec i 2); [lia|].
  rewrite H0, H1, Ha, Hp, Hm. simpl.
  assert (fgt m1 0 = false) as -> by (apply fgt_false; lra).
  apply flt_true in C1. apply fge_true in C0.
  apply fgt_true in Ca. apply fgt_true in Cp.
  simpl. rewrite C1. simpl. rewrite C0. simpl. rewrite Ca. simpl. rewrite Cp. done.
Qed.

Lemma checkEntrySignal_is_Some i n :
  len mainCF = n → len adx = n → len plusDI = n → len minusDI = n →
  i < n → is_Some (signal_at i).
Proof.
  intros H1 H2 H3 H4 Hi. unfold checkEntrySignal.
  destruct (Z.ltb_spec i 2); [by eexists|].
  destruct (at_index_is_Some mainCF i) as [m1 ->]; [lia|].
  destruct (at_index_is_Some mainCF (i - 1)) as [m0 ->]; [lia|].
  destruct (at_index_is_Some adx i) as [a ->]; [lia|].
  destruct (at_index_is_Some plusDI i) as [p ->]; [lia|].
  destruct (at_index_is_Some minusDI i) as [m ->]; [lia|].
  simpl.
  destruct (fgt m1 0); simpl; destruct (fle m0 0); simpl;
    destruct (fgt a _); simpl; destruct (fgt p m); simpl;
    destruct (flt m1 0); simpl; destruct (fge m0 0); simpl;
    destruct (fgt m p); simpl; by eexists.
Qed.

End Entries.

Section EntryFacts.
Variable strategy : Strategy.
Variable candles : list Candle.
Variables mainCF secondCF atr atrPercent adx plusDI minusDI : list Q.

Local Abbreviation step :=
  (tradingStep strategy candles mainCF secondCF atr atrPercent adx plusDI minusDI).
Local Abbreviation upto :=
  (tradingLoopUpto strategy candles mainCF secondCF atr atrPercent adx plusDI
     minusDI).

(** X10.  A position is opened only on a signal: when one iteration of the
    trading loop turns a flat state into one with a position, the index is
    at least 2, the ledger is unchanged, the position is entered at that
    candle's close and timestamp, and it is a LONG with the long conditions
    or a SHORT with the short conditions holding at that index. *)
Theorem entry_requires_signal st i st' position :
  currentPosition st = None →
  step st i = Some st' →
  currentPosition st' = Some position →
  2 <= i ∧ trades st' = trades st ∧
  ∃ candle,
    at_index candles i = Some candle ∧
    PEntryPrice position = Close candle ∧
    PEntryTime position = Timestamp candle ∧
    ((PSide position = "LONG" ∧
      longSignalAt strategy mainCF adx plusDI minusDI i) ∨
     (PSide position = "SHORT" ∧
      shortSignalAt strategy mainCF adx plusDI minusDI i)).
Proof.
  intros Hflat Hstep Hpos. unfold tradingStep in Hstep.
  destruct (at_index candles i) as [candle|] eqn:Hc; simpl in Hstep;
    [|discriminate].
  rewrite Hflat in Hstep.
  destruct (checkEntrySignal _ _ _ _ _ _ _ _) as [signal|] eqn:Hsig;
    simpl in Hstep; [|discriminate].
  apply checkEntrySignal_cases in Hsig.
  destruct Hsig as [->|[(-> & Hi & Hlong)|(-> & Hi & Hshort)]]; simpl in Hstep.
  - injection Hstep as <-. congruence.
  - destruct (at_index atr i) as [v|] eqn:Hv; simpl in Hstep; [|discriminate].
    injection Hstep as <-. simpl in Hpos. injection Hpos as <-.
    split; [done|]. split; [done|]. exists candle.
    split; [done|]. split; [done|]. split; [done|]. by left.
  - destruct (at_index atr i) as [v|] eqn:Hv; simpl in Hstep; [|discriminate].
    injection Hstep as <-. simpl in Hpos. injection Hpos as <-.
    split; [done|]. split; [done|]. exists candle.
    split; [done|]. split; [done|]. split; [done|]. by right.
Qed.

(** X11.  When MainCF crosses zero downward at index [i >= 2] with [ADX[i]]
    above the threshold and [-DI[i] > +DI[i]], bar [i] is inside the series
    and no position is open when bar [i] is reached, the simulator opens a
    SHORT position at bar [i]: entry price the close of candle [i], entry
    time its timestamp. *)
Theorem short_entry_at_crossing i st candle v :
  2 <= i →
  upto (i - 1) = Some st →
  currentPosition st = None →
  at_index candles i = Some candle →
  at_index atr i = Some v →
  shortSignalAt strategy mainCF adx plusDI minusDI i →
  ∃ st' position,
    upto i = Some st' ∧ currentPosition st' = Some position ∧
    PSide position = "SHORT" ∧ PEntryPrice position = Close candle ∧
    PEntryTime position = Timestamp candle ∧
    trades st' = trades st.
Proof.
  intros Hi Hprev Hflat Hc Hv Hsig.
  rewrite tradingLoopUpto_succ by lia. rewrite Hprev. simpl.
  unfold tradingStep. rewrite Hc. simpl. rewrite Hflat.
  rewrite (checkEntrySignal_short strategy mainCF secondCF adx plusDI minusDI
             atrPercent i Hi Hsig).
  simpl. rewrite Hv. simpl. eexists _, _. split; [done|]. simpl. done.
Qed.

End EntryFacts.

Lemma exitPriceOf_no_signal idx position candle atr :
  checkExitSignal idx position candle atr = false →
  exitPriceOf position candle = Close candle.
Proof.
  unfold checkExitSignal, exitPriceOf.
  destruct (String.eqb (PSide position) "LONG");
    intros [-> ->]%orb_false_iff; done.
Qed.

Section Safety.
Variable strategy : Strategy.
Variable candles : list Candle.
Variables mainCF secondCF atr atrPercent adx plusDI minusDI : list Q.

Local Abbreviation step :=
  (tradingStep strategy candles mainCF secondCF atr atrPercent adx plusDI minusDI).
Local Abbreviation upto :=
  (tradingLoopUpto strategy candles mainCF secondCF atr atrPercent adx plusDI
     minusDI).

Lemma tradingStep_is_Some st i :
  len mainCF = len candles → len atr = len candles → len adx = len candles →
  len plusDI = len candles → len minusDI = len candles →
  0 <= i < len candles → is_Some (step st i).
Proof.
  intros H1 H2 H3 H4 H5 Hi. unfold tradingStep.
  destruct (at_index_is_Some candles i) as [candle ->]; [lia|]. simpl.
  destruct (at_index_is_Some atr i) as [v Hv]; [lia|].
  destruct (currentPosition st) as [position|].
  - rewrite Hv. simpl. destruct (checkExitSignal _ _ _ _); by eexists.
  - destruct (checkEntrySignal_is_Some strategy mainCF secondCF adx plusDI
                minusDI atrPercent i (len candles)) as [signal ->]; [done..|lia|].
    simpl. destruct (String.eqb signal ""); [by eexists|].
    rewrite Hv. simpl. by eexists.
Qed.

Lemma simulate_is_Some :
  len mainCF = len candles → len atr = len candles → len adx = len candles →
  len plusDI = len candles → len minusDI = len candles →
  is_Some (simulate strategy candles mainCF secondCF atr atrPercent adx plusDI
             minusDI).
Proof.
  intros H1 H2 H3 H4 H5. unfold simulate, tradingLoop, tradingLoopUpto.
  destruct (forM_total step (seqZ 1 (len candles - 1))) with (s := initialState)
    as [st Hst].
  { intros s i Hin. apply elem_of_seqZ in Hin.
    apply tradingStep_is_Some; try done. lia. }
  rewrite Hst. simpl. unfold closeAtEnd.
  destruct (currentPosition st) as [position|] eqn:Hpos; [|by eexists].
  destruct (Z_le_gt_dec (len candles) 0) as [Hz|Hnz].
  - rewrite seqZ_nil in Hst by lia. simpl in Hst. injection Hst as <-. done.
  - destruct (at_index_is_Some candles (len candles - 1)) as [c ->]; [lia|].
    simpl. by eexists.
Qed.

(** X12.  When the MainCF, ATR, ADX, +DI and -DI arrays have one value per
    candle, the simulation does not panic: it ends with no open position
    and hands the ledger and the final balance to [calculateMetrics]. *)
Theorem executeBacktest_completes :
  len mainCF = len candles → len atr = len candles → len adx = len candles →
  len plusDI = len candles → len minusDI = len candles →
  ∃ st,
    simulate strategy candles mainCF secondCF atr atrPercent adx plusDI minusDI
      = Some st ∧
    currentPosition st = None ∧
    executeBacktest strategy candles mainCF secondCF atr atrPercent adx plusDI
      minusDI
    = Some (calculateMetrics newResult (trades st) initialBalance
              (currentBalance st)).
Proof.
  intros H1 H2 H3 H4 H5.
  destruct (simulate_is_Some H1 H2 H3 H4 H5) as [st Hst].
  exists st. split; [done|]. split.
  - unfold simulate in Hst.
    destruct (tradingLoop _ _ _ _ _ _ _ _ _) as [st0|]; simpl in Hst;
      [|discriminate].
    unfold closeAtEnd in Hst.
    destruct (currentPosition st0) as [position|] eqn:Hpos.
    + destruct (at_index candles (len candles - 1)); simpl in Hst;
        [|discriminate].
      by injection Hst as <-.
    + by injection Hst as <-.
  - unfold executeBacktest. by rewrite Hst.
Qed.

Lemma forced_closure_state st0 st position :
  2 <= len candles →
  upto (len candles - 2) = Some st0 →
  currentPosition st0 = Some position →
  tradingLoop strategy candles mainCF secondCF atr atrPercent adx plusDI minusDI
    = Some st →
  currentPosition st = Some position →
  ∃ lastCandle,
    at_index candles (len candles - 1) = Some lastCandle ∧
    st = st0 ∧
    simulate strategy candles mainCF secondCF atr atrPercent adx plusDI minusDI
      = Some (closeInto st position lastCandle) ∧
    exitPriceOf position lastCandle = Close lastCandle.
Proof.
  intros Hlen Hprev Hpos0 Hloop Hpos.
  unfold tradingLoop in Hloop.
  rewrite tradingLoopUpto_succ in Hloop by lia.
  replace (len candles - 1 - 1) with (len candles - 2) in Hloop by lia.
  rewrite Hprev in Hloop. simpl in Hloop. unfold tradingStep in Hloop.
  destruct (at_index candles (len candles - 1)) as [lastCandle|] eqn:Hlast;
    simpl in Hloop; [|discriminate].
  rewrite Hpos0 in Hloop.
  destruct (at_index atr (len candles - 1)) as [v|] eqn:Hv; simpl in Hloop;
    [|discriminate].
  destruct (checkExitSignal _ position lastCandle v) eqn:Hexit.
  { injection Hloop as <-. discriminate. }
  injection Hloop as <-.
  exists lastCandle. split; [done|]. split; [done|]. split.
  - unfold simulate, tradingLoop. rewrite tradingLoopUpto_succ by lia.
    replace (len candles - 1 - 1) with (len candles - 2) by lia.
    rewrite Hprev. simpl. unfold tradingStep. rewrite Hlast. simpl.
    rewrite Hpos0, Hv. simpl. rewrite Hexit. simpl.
    unfold closeAtEnd. rewrite Hpos0. rewrite Hlast. done.
  - by eapply exitPriceOf_no_signal.
Qed.

(** X13.  A position that was open before the last iteration and is still
    open after it is closed by the forced closure: one trade is appended
    to the ledger, with the side and the entry of the position, the close
    of the last candle as exit price and its timestamp as exit time. *)
Theorem forced_closure_at_last_close st0 st position :
  2 <= len candles →
  upto (len candles - 2) = Some st0 →
  currentPosition st0 = Some position →
  tradingLoop strategy candles mainCF secondCF atr atrPercent adx plusDI minusDI
    = Some st →
  currentPosition st = Some position →
  ∃ lastCandle st' trade,
    at_index candles (len candles - 1) = Some lastCandle ∧
    simulate strategy candles mainCF secondCF atr atrPercent adx plusDI minusDI
      = Some st' ∧
    currentPosition st' = None ∧
    trades st' = trades st0 ++ [trade] ∧
    Side trade = PSide position ∧
    EntryPrice trade = PEntryPrice position ∧
    EntryTime trade = PEntryTime position ∧
    ExitPrice trade = Close lastCandle ∧
    ExitTime trade = Timestamp lastCandle.
Proof.
  intros Hlen Hprev Hpos0 Hloop Hpos.
  destruct (forced_closure_state st0 st position Hlen Hprev Hpos0 Hloop Hpos)
    as (lastCandle & Hlast & -> & Hsim & Hprice).
  exists lastCandle, (closeInto st0 position lastCandle),
    (withPnL position (closePosition position lastCandle)).
  split; [done|]. split; [done|]. simpl. by rewrite Hprice.
Qed.

(** X14.  With at most two candles no trade is made: the loop reaches index 1
    only, which the guard [idx < 2] of [checkEntrySignal] never examines,
    and the result is the fresh one. *)
Theorem no_trade_on_short_series :
  len candles <= 2 →
  simulate strategy candles mainCF secondCF atr atrPercent adx plusDI minusDI
    = Some initialState ∧
  executeBacktest strategy candles mainCF secondCF atr atrPercent adx plusDI
    minusDI = Some newResult.
Proof.
  intros Hlen.
  assert (simulate strategy candles mainCF secondCF atr atrPercent adx plusDI
            minusDI = Some initialState) as Hsim.
  { unfold simulate, tradingLoop, tradingLoopUpto.
    destruct (Z_le_gt_dec (len candles) 1) as [Hz|Hnz].
    - rewrite seqZ_nil by lia. done.
    - replace (len candles - 1) with 1 by lia.
      change (seqZ 1 1) with [1]. simpl. unfold tradingStep.
      destruct (at_index_is_Some candles 1) as [c ->]; [lia|]. done. }
  split; [done|]. unfold executeBacktest. rewrite Hsim. done.
Qed.

End Safety.

Lemma sequentialLedger_snoc ledger trade :
  sequentialLedger ledger →
  Forall (λ earlier, ExitTime earlier < EntryTime trade) ledger →
  sequentialLedger (ledger ++ [trade]).
Proof.
  intros Hseq Hall i j earlier later Hi Hj Hlt.
  destruct (decide (j < length ledger)%nat) as [Hin|Hout].
  - rewrite lookup_app_l in Hi, Hj by lia. by eapply Hseq.
  - rewrite lookup_app_r in Hj by lia.
    destruct (j - length ledger)%nat as [|n] eqn:Hj'; simpl in Hj; [|done].
    injection Hj as <-.
    rewrite lookup_app_l in Hi by lia.
    rewrite Forall_forall in Hall. apply Hall.
    by eapply list_elem_of_lookup_2.
Qed.

Section Serial.
Variable strategy : Strategy.
Variable candles : list Candle.
Variables mainCF secondCF atr atrPercent adx plusDI minusDI : list Q.
Hypothesis increasing : strictlyIncreasing candles.

Local Abbreviation step :=
  (tradingStep strategy candles mainCF secondCF atr atrPercent adx plusDI minusDI).
Local Abbreviation upto :=
  (tradingLoopUpto strategy candles mainCF secondCF atr atrPercent adx plusDI
     minusDI).

Lemma closeInto_serial st position candle k :
  at_index candles k = Some candle →
  serial candles k st → currentPosition st = Some position →
  serial candles k (closeInto st position candle).
Proof.
  intros Hc (Hseq & Hexits & Hopen) Hpos.
  destruct (Hopen _ Hpos) as [_ Hafter].
  split; [|split].
  - simpl. apply sequentialLedger_snoc; done.
  - simpl. apply Forall_app. split; [done|].
    constructor; [|constructor]. simpl. exists k, candle. done.
  - intros p Hp. discriminate.
Qed.

Lemma serial_weaken st k k' :
  k <= k' → serial candles k st → serial candles k' st.
Proof.
  intros Hk (Hseq & Hexits & Hopen). split; [done|]. split.
  - eapply Forall_impl; [exact Hexits|].
    intros trade (j & c & ? & ? & ?). exists j, c. split; [lia|done].
  - intros p Hp. destruct (Hopen p Hp) as [(j & c & ? & ? & ?) Hafter].
    split; [|done]. exists j, c. split; [lia|done].
Qed.

Lemma tradingStep_serial st i st' :
  serial candles (i - 1) st → step st i = Some st' → serial candles i st'.
Proof.
  intros Hinv Hstep. unfold tradingStep in Hstep.
  destruct (at_index candles i) as [candle|] eqn:Hc; simpl in Hstep;
    [|discriminate].
  destruct (currentPosition st) as [position|] eqn:Hpos.
  - destruct (at_index atr i) as [v|]; simpl in Hstep; [|discriminate].
    destruct (checkExitSignal i position candle v); injection Hstep as <-.
    + apply closeInto_serial; [done| |done].
      apply (serial_weaken st (i - 1)); [lia|done].
    + apply (serial_weaken st (i - 1)); [lia|done].
  - destruct (checkEntrySignal _ _ _ _ _ _ _ _) as [signal|];
      simpl in Hstep; [|discriminate].
    destruct (String.eqb signal "").
    + injection Hstep as <-. apply (serial_weaken st (i - 1)); [lia|done].
    + destruct (at_index atr i) as [v|]; simpl in Hstep; [|discriminate].
      injection Hstep as <-. destruct Hinv as (Hseq & Hexits & _).
      split; [done|]. split.
      * simpl. eapply Forall_impl; [exact Hexits|].
        intros trade (j & c & ? & ? & ?). exists j, c. split; [lia|done].
      * simpl. intros p [= <-].
        destruct (openPosition_entry signal candle v (currentBalance st))
          as (_ & Htime & _).
        split; [exists i, candle; split; [lia|done]|].
        eapply Forall_impl; [exact Hexits|].
        intros trade (j & c & Hj & Hcj & ->). rewrite Htime.
        eapply (at_index_increasing candles increasing); [done..|lia].
Qed.

Lemma tradingLoopUpto_serial (k : nat) st :
  upto (Z.of_nat k) = Some st → serial candles (Z.of_nat k) st.
Proof.
  revert st. induction k as [|k IH]; intros st Hrun.
  - injection Hrun as <-. split; [|split].
    + intros i j ? ? Hi. done.
    + constructor.
    + intros p Hp. discriminate.
  - rewrite tradingLoopUpto_succ in Hrun by lia.
    replace (Z.of_nat (S k) - 1) with (Z.of_nat k) in Hrun by lia.
    destruct (upto (Z.of_nat k)) as [st0|]; simpl in Hrun; [|discriminate].
    eapply tradingStep_serial; [|exact Hrun].
    replace (Z.of_nat (S k) - 1) with (Z.of_nat k) by lia. by apply IH.
Qed.

End Serial.

Lemma entry_requires_signal_witness :
  shortSignalAt Samples.strat Samples.crossDown (Samples.strong 4)
    (Samples.below 4) (Samples.above 4) 2.
Proof.
  destruct (entry_requires_signal Samples.strat (Samples.bars 4) Samples.crossDown
              (replicate 4 0%Q) (Samples.unit 4) (Samples.unit 4)
              (Samples.strong 4) (Samples.below 4) (Samples.above 4)
              initialState 2 Samples.shortState Samples.shortPosition)
    as (_ & _ & candle & _ & _ & _ & [[Hside _]|[_ Hsig]]).
  - reflexivity.
  - vm_compute. reflexivity.
  - reflexivity.
  - discriminate Hside.
  - exact Hsig.
Defined.

Lemma short_entry_at_crossing_witness :
  ∃ st' position,
    tradingLoopUpto Samples.strat (Samples.bars 4) Samples.crossDown
      (replicate 4 0%Q) (Samples.unit 4) (Samples.unit 4) (Samples.strong 4)
      (Samples.below 4) (Samples.above 4) 2 = Some st' ∧
    currentPosition st' = Some position ∧
    PSide position = "SHORT" ∧ PEntryPrice position = Close (Samples.bar 3) ∧
    PEntryTime position = Timestamp (Samples.bar 3) ∧
    trades st' = trades initialState.
Proof.
  apply (short_entry_at_crossing Samples.strat (Samples.bars 4) Samples.crossDown
           (replicate 4 0%Q) (Samples.unit 4) (Samples.unit 4) (Samples.strong 4)
           (Samples.below 4) (Samples.above 4) 2 initialState (Samples.bar 3) 1%Q).
  - lia.
  - reflexivity.
  - reflexivity.
  - reflexivity.
  - reflexivity.
  - exists 0%Q, (-5)%Q, 30%Q, 10%Q, 20%Q. repeat split; by vm_compute.
Defined.

Lemma executeBacktest_completes_witness :
  ∃ st,
    simulate Samples.strat (Samples.bars 4) Samples.crossDown
      (replicate 4 0%Q) (Samples.unit 4) (Samples.unit 4) (Samples.strong 4)
      (Samples.below 4) (Samples.above 4) = Some st ∧
    currentPosition st = None ∧
    executeBacktest Samples.strat (Samples.bars 4) Samples.crossDown
      (replicate 4 0%Q) (Samples.unit 4) (Samples.unit 4) (Samples.strong 4)
      (Samples.below 4) (Samples.above 4)
    = Some (calculateMetrics newResult (trades st) initialBalance
              (currentBalance st)).
Proof.
  apply (executeBacktest_completes Samples.strat (Samples.bars 4)
           Samples.crossDown (replicate 4 0%Q) (Samples.unit 4) (Samples.unit 4)
           (Samples.strong 4) (Samples.below 4) (Samples.above 4));
    reflexivity.
Defined.

Lemma forced_closure_at_last_close_witness :
  ∃ lastCandle st' trade,
    at_index (Samples.bars 4) (len (Samples.bars 4) - 1) = Some lastCandle ∧
    simulate Samples.strat (Samples.bars 4) Samples.crossDown
      (replicate 4 0%Q) (Samples.unit 4) (Samples.unit 4) (Samples.strong 4)
      (Samples.below 4) (Samples.above 4) = Some st' ∧
    currentPosition st' = None ∧
    trades st' = trades Samples.shortState ++ [trade] ∧
    Side trade = PSide Samples.shortPosition ∧
    EntryPrice trade = PEntryPrice Samples.shortPosition ∧
    EntryTime trade = PEntryTime Samples.shortPosition ∧
    ExitPrice trade = Close lastCandle ∧
    ExitTime trade = Timestamp lastCandle.
Proof.
  apply (forced_closure_at_last_close Samples.strat (Samples.bars 4)
           Samples.crossDown (replicate 4 0%Q) (Samples.unit 4)
           (Samples.unit 4) (Samples.strong 4) (Samples.below 4)
           (Samples.above 4) Samples.shortState Samples.shortState
           Samples.shortPosition).
  - vm_compute. discriminate.
  - vm_compute. reflexivity.
  - reflexivity.
  - vm_compute. reflexivity.
  - reflexivity.
Defined.

Lemma no_trade_on_short_series_witness :
  simulate Samples.strat (Samples.bars 2) Samples.crossAtOne (replicate 2 0%Q)
    (Samples.unit 2) (Samples.unit 2) (Samples.strong 2) (Samples.above 2)
    (Samples.below 2) = Some initialState ∧
  executeBacktest Samples.strat (Samples.bars 2) Samples.crossAtOne
    (replicate 2 0%Q) (Samples.unit 2) (Samples.unit 2) (Samples.strong 2)
    (Samples.above 2) (Samples.below 2) = Some newResult.
Proof.
  apply (no_trade_on_short_series Samples.strat (Samples.bars 2)
           Samples.crossAtOne (replicate 2 0%Q) (Samples.unit 2) (Samples.unit 2)
           (Samples.strong 2) (Samples.above 2) (Samples.below 2)).
  vm_compute. discriminate.
Defined.


(** ** Metrics of a non-empty ledger *)

Lemma wins_bounds ledger : 0 <= wins ledger <= len ledger.
Proof.
  unfold wins, len. pose proof (List.filter_length_le isWin ledger). lia.
Qed.

Lemma tally_fold ledger : ∀ w l tp tl,
  0 <= w → 0 <= l → w + l + len ledger <= int_max →
  ∃ tp' tl',
    fold_left tally ledger (w, l, tp, tl)
    = (w + wins ledger, l + (len ledger - wins ledger), tp', tl') ∧
    (tp' == tp + sumOver winPnL ledger)%Q ∧
    (tl' == tl + sumOver lossPnL ledger)%Q.
Proof.
  induction ledger as [|trade rest IH]; intros w l tp tl Hw Hl Hmax.
  - exists tp, tl. unfold wins, len. simpl.
    rewrite !Z.add_0_r. split; [done|]. split; lra.
  - pose proof (wins_bounds rest) as Hb.
    unfold len in Hmax, Hb. simpl length in Hmax.
    simpl. unfold winPnL at 1, lossPnL at 1, wins, len. simpl.
    fold (isWin trade). destruct (isWin trade) eqn:Hwin.
    + rewrite add_id by (unfold in_int, int_min, int_max in *; lia).
      destruct (IH (w + 1) l (tp + PnL trade)%Q tl) as (tp' & tl' & -> & Htp & Htl);
        [lia|lia|unfold len; lia|].
      exists tp', tl'. split.
      * unfold wins, len. simpl length. f_equal. f_equal. f_equal; lia.
      * split; lra.
    + rewrite add_id by (unfold in_int, int_min, int_max in *; lia).
      destruct (IH w (l + 1) tp (tl + PnL trade)%Q) as (tp' & tl' & -> & Htp & Htl);
        [lia|lia|unfold len; lia|].
      exists tp', tl'. split.
      * unfold wins, len. simpl length. f_equal. f_equal. f_equal; lia.
      * split; lra.
Qed.

Lemma sum_winPnL_sign ledger :
  (0 <= sumOver winPnL ledger)%Q ∧ (sumOver lossPnL ledger <= 0)%Q ∧
  (0 < wins ledger → (0 < sumOver winPnL ledger)%Q).
Proof.
  induction ledger as [|trade rest (Hw & Hl & Hpos)].
  - simpl. split; [lra|]. split; [lra|]. unfold wins. simpl. lia.
  - change (sumOver winPnL (trade :: rest))
      with (winPnL trade + sumOver winPnL rest)%Q.
    change (sumOver lossPnL (trade :: rest))
      with (lossPnL trade + sumOver lossPnL rest)%Q.
    unfold wins in *. simpl List.filter. unfold winPnL at 1 3, lossPnL at 1.
    destruct (isWin trade) eqn:Hwin; unfold isWin in Hwin.
    + apply fgt_true in Hwin.
      split; [lra|]. split; [lra|]. intros _. lra.
    + apply fgt_false in Hwin.
      split; [lra|]. split; [lra|]. intros Hn.
      specialize (Hpos Hn). lra.
Qed.

(** X16.  For a non-empty ledger [TotalTrades] is its length, [WinningTrades]
    counts the trades with [PnL > 0], [LosingTrades] all the others (a zero
    PnL counts as a loss), and [WinRate] lies in [[0, 100]]. *)
Theorem calculateMetrics_counts ledger initial final :
  ledger ≠ [] → len ledger <= int_max →
  let result := calculateMetrics newResult ledger initial final in
  TotalTrades result = len ledger ∧
  WinningTrades result = wins ledger ∧
  LosingTrades result = len ledger - wins ledger ∧
  WinningTrades result + LosingTrades result = TotalTrades result ∧
  (0 <= WinRate result)%Q ∧ (WinRate result <= 100)%Q.
Proof.
  intros Hne Hlen. unfold calculateMetrics.
  assert (0 < len ledger) as Hpos.
  { destruct ledger; [done|]. unfold len. simpl. lia. }
  destruct (Z.eqb_spec (len ledger) 0); [lia|].
  destruct (tally_fold ledger 0 0 0%Q 0%Q) as (tp & tl & Hfold & _ & _);
    [lia|lia|lia|].
  rewrite !Z.add_0_l in Hfold. rewrite Hfold. simpl.
  pose proof (wins_bounds ledger) as [Hw0 Hw1].
  split; [done|]. split; [done|]. split; [done|]. split; [lia|].
  assert (0 < inject_Z (len ledger))%Q as Hq
    by (change 0%Q with (inject_Z 0); rewrite <- Zlt_Qlt; lia).
  assert (0 <= inject_Z (wins ledger))%Q as Hq0
    by (change 0%Q with (inject_Z 0); rewrite <- Zle_Qle; lia).
  assert (inject_Z (wins ledger) <= inject_Z (len ledger))%Q as Hq1
    by (rewrite <- Zle_Qle; lia).
  assert (0 <= inject_Z (wins ledger) / inject_Z (len ledger))%Q
    by (apply Qle_shift_div_l; [done|lra]).
  assert (inject_Z (wins ledger) / inject_Z (len ledger) <= 1)%Q
    by (apply Qle_shift_div_r; [done|lra]).
  split; lra.
Qed.

Lemma sum_lossPnL_all_wins ledger :
  wins ledger = len ledger → (sumOver lossPnL ledger == 0)%Q.
Proof.
  unfold wins, len. induction ledger as [|trade rest IH]; simpl; [lra|].
  pose proof (List.filter_length_le isWin rest) as Hle.
  unfold lossPnL at 1. destruct (isWin trade); simpl; intros Hall.
  - rewrite IH by lia. lra.
  - lia.
Qed.

Lemma calculateMetrics_key_values ledger initial final :
  ledger ≠ [] → len ledger <= int_max →
  let metrics := Metrics (calculateMetrics newResult ledger initial final) in
  (0 < wins ledger →
   ∃ v, metrics !! "avg_win" = Some v ∧
        (v == sumOver winPnL ledger / inject_Z (wins ledger))%Q ∧ (0 < v)%Q) ∧
  (wins ledger = 0 → metrics !! "avg_win" = None) ∧
  (wins ledger < len ledger →
   ∃ v, metrics !! "avg_loss" = Some v ∧
        (v == sumOver lossPnL ledger / inject_Z (len ledger - wins ledger))%Q ∧
        (v <= 0)%Q) ∧
  (wins ledger = len ledger → metrics !! "avg_loss" = None) ∧
  ((sumOver lossPnL ledger == 0)%Q → metrics !! "profit_factor" = None) ∧
  (¬ (sumOver lossPnL ledger == 0)%Q →
   ∃ v, metrics !! "profit_factor" = Some v ∧
        (v == sumOver winPnL ledger / - sumOver lossPnL ledger)%Q ∧ (0 <= v)%Q).
Proof.
  intros Hne Hlen. unfold calculateMetrics.
  assert (0 < len ledger) as Hpos.
  { destruct ledger; [done|]. unfold len. simpl. lia. }
  destruct (Z.eqb_spec (len ledger) 0); [lia|].
  destruct (tally_fold ledger 0 0 0%Q 0%Q) as (tp & tl & Hfold & Htp & Htl);
    [lia|lia|lia|].
  rewrite !Z.add_0_l in Hfold. rewrite Hfold. simpl.
  pose proof (wins_bounds ledger) as [Hw0 Hw1].
  destruct (sum_winPnL_sign ledger) as (Hwin0 & Hloss0 & Hwinpos).
  assert (tp == sumOver winPnL ledger)%Q as Htp' by lra.
  assert (tl == sumOver lossPnL ledger)%Q as Htl' by lra.
  clear Htp Htl Hfold.
  set (losses := len ledger - wins ledger) in *.
  assert (0 < losses → (tl / inject_Z losses <= 0)%Q) as Havg_nonpos.
  { intros Hl. assert (0 < inject_Z losses)%Q
      by (change 0%Q with (inject_Z 0); rewrite <- Zlt_Qlt; lia).
    apply Qle_shift_div_r; [done|]. lra. }
  assert (0 < losses → ((tl / inject_Z losses == 0)%Q ↔ (tl == 0)%Q)) as Havg_zero.
  { intros Hl. assert (0 < inject_Z losses)%Q as Hq
      by (change 0%Q with (inject_Z 0); rewrite <- Zlt_Qlt; lia).
    split; intros Hz.
    - assert (tl == tl / inject_Z losses * inject_Z losses)%Q as -> by (field; lra).
      rewrite Hz. lra.
    - rewrite Hz. field. lra. }
  destruct (Z.gtb_spec (wins ledger) 0) as [Hw|Hw];
    destruct (Z.gtb_spec losses 0) as [Hl|Hl].
  - (* winners and losers *)
    unfold metric. rewrite lookup_insert_eq. simpl.
    destruct (fne (tl / inject_Z losses) 0) eqn:Hpf.
    + apply fne_true in Hpf.
      rewrite lookup_insert_ne by done. rewrite lookup_insert_ne by done.
      rewrite lookup_insert_eq.
      rewrite lookup_insert_ne by done. rewrite lookup_insert_eq.
      rewrite lookup_insert_eq.
      repeat split.
      * intros _. eexists. split; [done|]. split; [by rewrite Htp'|].
        apply Qlt_shift_div_l;
          [change 0%Q with (inject_Z 0); rewrite <- Zlt_Qlt; lia|].
        specialize (Hwinpos Hw). lra.
      * lia.
      * intros _. eexists. split; [done|]. split; [by rewrite Htl'|].
        by apply Havg_nonpos.
      * lia.
      * intros Hz. exfalso. apply Hpf. apply Havg_zero; [done|]. lra.
      * intros _. eexists. split; [done|]. split; [by rewrite Htp', Htl'|].
        assert (¬ tl == 0)%Q as Hnz by (intros Hz; apply Hpf; by apply Havg_zero).
        apply Qle_shift_div_l; lra.
    + unfold fne in Hpf. apply negb_false_iff, feq_true in Hpf.
      rewrite lookup_insert_ne by done. rewrite lookup_insert_eq.
      rewrite lookup_insert_eq.
      rewrite lookup_insert_ne by done. rewrite lookup_insert_ne by done.
      rewrite lookup_empty.
      repeat split.
      * intros _. eexists. split; [done|]. split; [by rewrite Htp'|].
        apply Qlt_shift_div_l;
          [change 0%Q with (inject_Z 0); rewrite <- Zlt_Qlt; lia|].
        specialize (Hwinpos Hw). lra.
      * lia.
      * intros _. eexists. split; [done|]. split; [by rewrite Htl'|].
        by apply Havg_nonpos.
      * lia.
      * intros Hnz. exfalso. apply Hnz. rewrite <- Htl'. by apply Havg_zero.
  - (* only winners *)
    assert (wins ledger = len ledger) as Hall by (subst losses; lia).
    pose proof (sum_lossPnL_all_wins ledger Hall) as Hzero.
    unfold metric. rewrite lookup_insert_ne by done. rewrite lookup_empty. simpl.
    rewrite lookup_insert_eq. rewrite lookup_insert_ne by done.
    rewrite lookup_empty.
    repeat split.
    + intros _. eexists. split; [done|]. split; [by rewrite Htp'|].
      apply Qlt_shift_div_l;
        [change 0%Q with (inject_Z 0); rewrite <- Zlt_Qlt; lia|].
      specialize (Hwinpos Hw). lra.
    + lia.
    + subst losses. lia.
    + intros Hnz. contradiction.
  - (* only losers *)
    unfold metric. rewrite lookup_insert_eq. simpl.
    destruct (fne (tl / inject_Z losses) 0) eqn:Hpf.
    + apply fne_true in Hpf.
      rewrite lookup_insert_ne by done. rewrite lookup_insert_ne by done.
      rewrite lookup_empty. rewrite lookup_insert_ne by done.
      rewrite lookup_insert_eq. rewrite lookup_insert_eq.
      repeat split.
      * lia.
      * intros _. eexists. split; [done|]. split; [by rewrite Htl'|].
        by apply Havg_nonpos.
      * subst losses. lia.
      * intros Hz. exfalso. apply Hpf. apply Havg_zero; [done|]. lra.
      * intros _. eexists. split; [done|]. split; [by rewrite Htp', Htl'|].
        assert (¬ tl == 0)%Q as Hnz by (intros Hz; apply Hpf; by apply Havg_zero).
        apply Qle_shift_div_l; lra.
    + unfold fne in Hpf. apply negb_false_iff, feq_true in Hpf.
      rewrite lookup_insert_ne by done. rewrite lookup_empty.
      rewrite lookup_insert_eq. rewrite lookup_insert_ne by done.
      rewrite lookup_empty.
      repeat split.
      * lia.
      * intros _. eexists. split; [done|]. split; [by rewrite Htl'|].
        by apply Havg_nonpos.
      * subst losses. lia.
      * intros Hnz. exfalso. apply Hnz. rewrite <- Htl'. by apply Havg_zero.
  - subst losses. lia.
Qed.

Lemma sum_lossPnL_zero ledger :
  (sumOver lossPnL ledger == 0)%Q ↔ ¬ Exists (λ trade, (PnL trade < 0)%Q) ledger.
Proof.
  induction ledger as [|trade rest IH].
  - simpl. split; [intros _ H; inversion H|reflexivity].
  - change (sumOver lossPnL (trade :: rest))
      with (lossPnL trade + sumOver lossPnL rest)%Q.
    destruct (sum_winPnL_sign rest) as (_ & Hrest & _).
    unfold lossPnL at 1. unfold isWin.
    destruct (fgt (PnL trade) 0) eqn:Hwin.
    + apply fgt_true in Hwin. split.
      * intros Hz Hex. apply Exists_cons in Hex as [Hneg|Hex]; [lra|].
        apply IH; [lra|done].
      * intros Hno. assert (sumOver lossPnL rest == 0)%Q as ->; [|lra].
        apply IH. intros Hex. apply Hno. by right.
    + apply fgt_false in Hwin. split.
      * intros Hz Hex. apply Exists_cons in Hex as [Hneg|Hex]; [lra|].
        apply IH; [lra|done].
      * intros Hno.
        assert (¬ (PnL trade < 0)%Q) as Hnn by (intros Hneg; apply Hno; by left).
        assert (sumOver lossPnL rest == 0)%Q as ->.
        { apply IH. intros Hex. apply Hno. by right. }
        lra.
Qed.

Lemma sum_lossPnL_negative ledger :
  ¬ (sumOver lossPnL ledger == 0)%Q → Exists (λ trade, (PnL trade < 0)%Q) ledger.
Proof.
  induction ledger as [|trade rest IH]; intros Hnz.
  - exfalso. apply Hnz. reflexivity.
  - destruct (Qlt_le_dec (PnL trade) 0) as [Hneg|Hnn]; [by left|].
    right. apply IH. intros Hz. apply Hnz.
    change (sumOver lossPnL (trade :: rest))
      with (lossPnL trade + sumOver lossPnL rest)%Q.
    rewrite Hz. unfold lossPnL, isWin.
    destruct (fgt (PnL trade) 0) eqn:Hwin; [lra|].
    apply fgt_false in Hwin. lra.
Qed.


Lemma calculateMetrics_counts_witness :
  TotalTrades (calculateMetrics newResult Samples.ledger 10000 10020) = 2 ∧
  WinningTrades (calculateMetrics newResult Samples.ledger 10000 10020) = 1 ∧
  LosingTrades (calculateMetrics newResult Samples.ledger 10000 10020) = 1.
Proof.
  destruct (calculateMetrics_counts Samples.ledger 10000 10020)
    as (Htotal & Hwins & Hlosses & _).
  - discriminate.
  - vm_compute. discriminate.
  - split; [exact Htotal|]. split; [exact Hwins|exact Hlosses].
Defined.


(** ** CSV upload *)

Section CSVFacts.
Variable F : Type.
Variable ParseInt : string → option Z.
Variable ParseFloat : string → option F.
Variable DB : Type.
Variable InsertCandle : DB → ParsedCandle F → DB * bool.

Local Abbreviation loop := (uploadLoop F ParseInt ParseFloat DB InsertCandle).

Lemma parseCandle_no_panic record symbol interval :
  6 <= len record →
  is_Some (parseCandle F ParseInt ParseFloat record symbol interval).
Proof.
  intros Hlen. unfold len in Hlen.
  destruct record as [|f0 [|f1 [|f2 [|f3 [|f4 [|f5 rest]]]]]]; simpl in Hlen;
    try lia.
  unfold parseCandle, parsedField. simpl.
  destruct (ParseInt f0); simpl; [|by eexists].
  destruct (ParseFloat f1); simpl; [|by eexists].
  destruct (ParseFloat f2); simpl; [|by eexists].
  destruct (ParseFloat f3); simpl; [|by eexists].
  destruct (ParseFloat f4); simpl; [|by eexists].
  destruct (ParseFloat f5); simpl; by eexists.
Qed.

Lemma uploadLoop_fields symbol interval record rest count lineNum db :
  loop symbol interval (Fields record :: rest) count lineNum db
  = if isSeparator record then loop symbol interval rest count (add lineNum 1) db
    else if len record <? 6
    then loop symbol interval rest count (add lineNum 1) db
    else
      match parseCandle F ParseInt ParseFloat record symbol interval with
      | None => None
      | Some None => loop symbol interval rest count (add lineNum 1) db
      | Some (Some candle) =>
          let '(db', ok) := InsertCandle db candle in
          if ok : bool
          then loop symbol interval rest (add count 1) (add lineNum 1) db'
          else loop symbol interval rest count (add lineNum 1) db'
      end.
Proof. reflexivity. Qed.

Lemma uploadLoop_spec symbol interval rows : ∀ count lineNum db,
  0 <= count → 0 <= lineNum →
  count + len rows <= int_max → lineNum + len rows <= int_max →
  ∃ count' err db',
    loop symbol interval rows count lineNum db = Some (count', err, db') ∧
    count <= count' <= count + len (List.filter isData rows) ∧
    (∀ line, err = Some line →
       lineNum < line ∧
       rows !! Z.to_nat (line - lineNum - 1) = Some ReadError ∧
       Forall (λ row, row ≠ ReadError) (take (Z.to_nat (line - lineNum - 1)) rows)) ∧
    (err = None → Forall (λ row, row ≠ ReadError) rows).
Proof.
  induction rows as [|row rest IH]; intros count lineNum db Hc Hl Hcmax Hlmax.
  - exists count, None, db. simpl. split; [done|]. unfold len. simpl.
    split; [lia|]. split; [done|]. intros _. constructor.
  - assert (len (row :: rest) = len rest + 1) as Hlen
      by (unfold len; simpl length; lia).
    assert (0 <= len rest) as Hnonneg by (unfold len; lia).
    rewrite Hlen in Hcmax, Hlmax.
    destruct row as [record|].
    + assert (∀ count0 db0,
                count <= count0 <= count + (if isData (Fields record) then 1 else 0) →
                ∃ count' err db',
                  loop symbol interval rest count0 (lineNum + 1) db0
                  = Some (count', err, db') ∧
                  count <= count'
                  <= count + len (List.filter isData (Fields record :: rest)) ∧
                  (∀ line, err = Some line →
                     lineNum < line ∧
                     (Fields record :: rest) !! Z.to_nat (line - lineNum - 1)
                     = Some ReadError ∧
                     Forall (λ row, row ≠ ReadError)
                       (take (Z.to_nat (line - lineNum - 1))
                          (Fields record :: rest))) ∧
                  (err = None →
                   Forall (λ row, row ≠ ReadError) (Fields record :: rest)))
        as Hkeep.
      { intros count0 db0 Hc0.
        destruct (IH count0 (lineNum + 1) db0)
          as (c' & e & d' & Hrun & Hcount & Herr & Hok);
          [destruct (isData (Fields record)); lia|lia
          |destruct (isData (Fields record)); lia|lia|].
        exists c', e, d'. split; [done|]. split.
        - cbn [List.filter]. destruct (isData (Fields record)); unfold len in *;
            cbn [length] in *; lia.
        - split.
          + intros line He. destruct (Herr line He) as (Hlt & Hat & Hbefore).
            split; [lia|].
            replace (line - lineNum - 1) with (Z.succ (line - (lineNum + 1) - 1))
              by lia.
            rewrite Z2Nat.inj_succ by lia. cbn [take]. rewrite lookup_cons.
            split; [done|]. constructor; [done|done].
          + intros He. constructor; [done|by apply Hok]. }
      rewrite uploadLoop_fields.
      rewrite !add_id by (unfold in_int, int_min, int_max in *; lia).
      unfold isData in Hkeep.
      destruct (isSeparator record) eqn:Hsep.
      { apply Hkeep. simpl. lia. }
      destruct (Z.ltb_spec (len record) 6) as [Hshort|Hlong].
      { apply Hkeep. simpl. lia. }
      destruct (parseCandle_no_panic record symbol interval Hlong) as [parsed ->].
      destruct parsed as [candle|]; [|apply Hkeep; simpl; lia].
      destruct (InsertCandle db candle) as [db' ok].
      destruct ok; apply Hkeep; simpl; lia.
    + exists count, (Some (lineNum + 1)), db. split.
      { simpl. rewrite add_id by (unfold in_int, int_min, int_max in *; lia). done. }
      split. { unfold len. lia. }
      split.
      * intros line [= <-]. split; [lia|].
        replace (lineNum + 1 - lineNum - 1) with 0 by lia. simpl.
        split; [done|constructor].
      * discriminate.
Qed.

Lemma uploadLoop_ignores_skipped symbol interval rows : ∀ count lineNum lineNum' db,
  uploadOutcome <$> loop symbol interval (List.filter isData rows) count lineNum' db
  = uploadOutcome <$> loop symbol interval rows count lineNum db.
Proof.
  induction rows as [|row rest IH]; intros count lineNum lineNum' db.
  - reflexivity.
  - destruct row as [record|].
    + cbn [List.filter]. rewrite (uploadLoop_fields _ _ record rest).
      unfold isData.
      destruct (isSeparator record) eqn:Hsep; [apply IH|].
      destruct (len record <? 6) eqn:Hshort; [apply IH|].
      cbn [negb andb]. rewrite uploadLoop_fields, Hsep, Hshort.
      destruct (parseCandle F ParseInt ParseFloat record symbol interval)
        as [[candle|]|]; [|apply IH|done].
      destruct (InsertCandle db candle) as [db' ok].
      destruct ok; apply IH.
    + reflexivity.
Qed.


End CSVFacts.

